(** * Jeu de taquin: a shallow embedding of [Taquin.py] and its properties

    The development follows the source file top-down: the class [Puzzle]
    (grid, goal test, move enumeration, Manhattan heuristic, swap), the
    class [Noeud] (search node with parent link and cost [g]) and the class
    [Solution] with its search loop [resoudre].

    Python integers are [Z], Python lists are [list], Python strings are
    [string], the set [rs] is a [gset string], and the deque [queue] is a
    list whose head is the left end.  Python exceptions are the [Raise]
    results of a small error monad. *)

From Stdlib Require Import ZArith List Lia DecimalString DecimalPos DecimalZ.
From stdpp Require Import base tactics option list list_numbers sorting gmap sets strings.

Local Open Scope Z_scope.

(** ** Exceptions and the error monad *)

(** The only exception the code of [Taquin.py] can raise on lists of lists
    of integers is [IndexError] (subscript out of range, [popleft] on an
    empty deque). *)
Inductive exception : Type :=
  | IndexError.

Inductive result (A : Type) : Type :=
  | Ok (a : A)
  | Raise (e : exception).
Arguments Ok {A} a.
Arguments Raise {A} e.

#[global] Instance result_ret : MRet result := fun A a => Ok a.
#[global] Instance result_bind : MBind result := fun A B f m =>
  match m with
  | Ok a => f a
  | Raise e => Raise e
  end.
#[global] Instance result_fmap : FMap result := fun A B f m =>
  match m with
  | Ok a => Ok (f a)
  | Raise e => Raise e
  end.

(** A [for x in l: body] loop threading the variables [s] that the body
    assigns; an exception in the body leaves the loop. *)
Fixpoint for_each {A S : Type} (l : list A) (body : A -> S -> result S) (s : S)
  : result S :=
  match l with
  | [] => Ok s
  | x :: l' => s' ← body x s; for_each l' body s'
  end.

(** ** Python built-ins used by the program *)

(** [l[i]]: a negative subscript counts from the right end. *)
Definition getitem {A : Type} (l : list A) (i : Z) : result A :=
  let k := if i <? 0 then i + Z.of_nat (length l) else i in
  if (0 <=? k) && (k <? Z.of_nat (length l)) then
    match l !! Z.to_nat k with
    | Some x => Ok x
    | None => Raise IndexError
    end
  else Raise IndexError.

(** [l[i] = v] on a list object, seen as the new contents of that object. *)
Definition setitem {A : Type} (l : list A) (i : Z) (v : A) : result (list A) :=
  let k := if i <? 0 then i + Z.of_nat (length l) else i in
  if (0 <=? k) && (k <? Z.of_nat (length l)) then Ok (<[Z.to_nat k := v]> l)
  else Raise IndexError.

(** [range(a, b)] and [range(b)]. *)
Definition range2 (a b : Z) : list Z := seqZ a (b - a).
Definition range (b : Z) : list Z := range2 0 b.

(** [itertools.product(xs, ys)]: the rightmost component varies fastest. *)
Definition product {A B : Type} (xs : list A) (ys : list B) : list (A * B) :=
  x ← xs; y ← ys; [(x, y)].

(** [str(z)] for an integer. *)
Definition str (z : Z) : string := NilZero.string_of_int (Z.to_int z).

(** [''.join(l)]. *)
Definition join (l : list string) : string := String.concat ""%string l.

(** [divmod(a, b)] for a positive [b]; Python rounds the quotient down. *)
Definition divmod (a b : Z) : Z * Z := (a `div` b, a `mod` b).

(** ** class Puzzle *)

Record Puzzle : Type := mkPuzzle {
  largeur : Z;
  table : list (list Z)
}.

(** A grid position [(row, column)] and a move label ['D'], ['G'], ['B'],
    ['H']. *)
Definition pos : Type := (Z * Z)%type.

(** [Puzzle.__init__]: [len(table[0])] raises on an empty [table]. *)
Definition Puzzle_init (table : list (list Z)) : result Puzzle :=
  row0 ← getitem table 0;
  Ok {| largeur := Z.of_nat (length row0); table := table |}.

(** [Puzzle.__iter__]. *)
Definition Puzzle_iter (self : Puzzle) : list Z := concat (table self).

(** [Puzzle.__str__]. *)
Definition Puzzle_str (self : Puzzle) : string := join (map str (Puzzle_iter self)).

(** [Puzzle.est_resolu]. *)
Definition est_resolu (self : Puzzle) : bool :=
  let n := largeur self * largeur self in
  bool_decide (Puzzle_str self = join (map str (range2 1 n)) +:+ "0"%string).

(** [Puzzle.copy]. *)
Definition Puzzle_copy (self : Puzzle) : result Puzzle :=
  Puzzle_init (map (fun row => map (fun x => x) row) (table self)).

(** [t[i][j] = v] for a list of distinct row objects. *)
Definition setitem2 (t : list (list Z)) (i j : Z) (v : Z) : result (list (list Z)) :=
  row ← getitem t i;
  row' ← setitem row j v;
  setitem t i row'.

(** [Puzzle._move]: the right-hand side of the tuple assignment is read
    first, then the two targets are assigned from left to right. *)
Definition Puzzle_move (self : Puzzle) (p1 p2 : pos) : result Puzzle :=
  copy ← Puzzle_copy self;
  let '(i, j) := p1 in
  let '(r, c) := p2 in
  row_r ← getitem (table copy) r;
  v_rc ← getitem row_r c;
  row_i ← getitem (table copy) i;
  v_ij ← getitem row_i j;
  t1 ← setitem2 (table copy) i j v_rc;
  t2 ← setitem2 t1 r c v_ij;
  Ok {| largeur := largeur copy; table := t2 |}.

(** The closure [lambda: self._move(p1, p2)] built by [create_move],
    defunctionalised: it captures [self], [p1] and [p2]. *)
Record move : Type := create_move {
  move_self : Puzzle;
  move_p1 : pos;
  move_p2 : pos
}.

(** Calling the closure: [move()]. *)
Definition call (m : move) : result Puzzle :=
  Puzzle_move (move_self m) (move_p1 m) (move_p2 m).

(** The dictionary [direcs], in insertion order. *)
Definition direcs (i j : Z) : list (string * pos) :=
  [("D"%string, (i, j - 1)); ("G"%string, (i, j + 1));
   ("B"%string, (i - 1, j)); ("H"%string, (i + 1, j))].

(** [Puzzle.actions]. *)
Definition actions (self : Puzzle) : result (list (move * string)) :=
  for_each (product (range (largeur self)) (range (largeur self)))
    (fun '(i, j) moves =>
       for_each (direcs i j)
         (fun '(action, (r, c)) (moves : list (move * string)) =>
            if (0 <=? r) && (r <? largeur self) && (0 <=? c) && (c <? largeur self)
            then
              row ← getitem (table self) r;
              v ← getitem row c;
              if v =? 0
              then Ok (moves ++ [(create_move self (i, j) (r, c), action)])
              else Ok moves
            else Ok moves)
         moves)
    [].

(** [Puzzle.manhattan]; the bounds [3] are the source's. *)
Definition manhattan (self : Puzzle) : result Z :=
  for_each (range 3)
    (fun i distance =>
       for_each (range 3)
         (fun j distance =>
            row ← getitem (table self) i;
            v ← getitem row j;
            if negb (v =? 0)
            then
              let '(x, y) := divmod (v - 1) 3 in
              Ok (distance + (Z.abs (x - i) + Z.abs (y - j)))
            else Ok distance)
         distance)
    0.

(** ** class Noeud *)

#[warnings="-register-all"]
Inductive Noeud : Type := mkNoeud {
  puzzle : Puzzle;
  parent : option Noeud;
  action : option string;
  g : Z
}.

(** [Noeud.__init__]. *)
Definition Noeud_init (puzzle : Puzzle) (parent : option Noeud)
  (action : option string) : Noeud :=
  mkNoeud puzzle parent action
    (match parent with
     | Some p => g p + 1
     | None => 0
     end).

(** [Noeud.__str__] and [Noeud.etat]. *)
Definition Noeud_str (self : Noeud) : string := Puzzle_str (puzzle self).
Definition etat (self : Noeud) : string := Noeud_str self.

(** The list [p] built by the [while noeud:] loop of [Noeud.chemin]: the
    node, its parent, ... up to the root (a node object is always true). *)
Fixpoint ancetres (self : Noeud) : list Noeud :=
  match self with
  | mkNoeud _ par _ _ =>
      self :: match par with
              | Some p => ancetres p
              | None => []
              end
  end.

(** [Noeud.chemin]: the nodes from the root to [self]. *)
Definition chemin (self : Noeud) : list Noeud := rev (ancetres self).

Definition Noeud_est_resolu (self : Noeud) : bool := est_resolu (puzzle self).
Definition Noeud_actions (self : Noeud) : result (list (move * string)) :=
  actions (puzzle self).
Definition h (self : Noeud) : result Z := manhattan (puzzle self).
Definition f (self : Noeud) : result Z := hv ← h self; Ok (hv + g self).

(** ** class Solution *)

Record Solution : Type := mkSolution {
  initial : Puzzle
}.

(** [sorted(l, key=key)]: the keys are computed once, from left to right,
    and the sort is stable: elements with equal keys keep their order. *)
Fixpoint insert_by_key {A : Type} (x : Z * A) (l : list (Z * A)) : list (Z * A) :=
  match l with
  | [] => [x]
  | y :: l' => if x.1 <=? y.1 then x :: l else y :: insert_by_key x l'
  end.

Definition sort_by_key {A : Type} (l : list (Z * A)) : list (Z * A) :=
  foldr insert_by_key [] l.

Definition sorted {A : Type} (l : list A) (key : A -> result Z) : result (list A) :=
  decorated ← mapM (fun x => k ← key x; Ok (k, x)) l;
  Ok (snd <$> sort_by_key decorated).

(** The variables of [resoudre] that live across iterations: the deque
    [queue] (left end first) and the set [rs]. *)
Record state : Type := mkState {
  queue : list Noeud;
  rs : gset string
}.

(** The body of [for move, action in noeud.actions]. *)
Definition visiter (noeud : Noeud) (ma : move * string) (st : state) : result state :=
  let '(move, action) := ma in
  pz ← call move;
  let enfant := Noeud_init pz (Some noeud) (Some action) in
  if decide (etat enfant ∉ rs st)
  then Ok {| queue := enfant :: queue st; rs := rs st ∪ {[etat enfant]} |}
  else Ok st.

(** One evaluation of the [while queue:] test and, when it holds, of the
    loop body.  [inr r] is the value [resoudre] returns ([Some] of the path
    that [chemin] yields, or Python's [None] when the loop ends), [inl st]
    the variables at the start of the next iteration. *)
Definition iteration (st : state) : result (state + option (list Noeud)) :=
  match queue st with
  | [] => Ok (inr None)
  | _ :: _ =>
      q ← sorted (queue st) f;
      match q with
      | [] => Raise IndexError
      | noeud :: q' =>
          if Noeud_est_resolu noeud then Ok (inr (Some (chemin noeud)))
          else
            acts ← Noeud_actions noeud;
            st' ← for_each acts (visiter noeud) {| queue := q'; rs := rs st |};
            Ok (inl st')
      end
  end.

(** The [while] loop, run for at most [fuel] iterations; [None] when the
    fuel runs out before the loop ends. *)
Fixpoint boucle (fuel : nat) (st : state) : option (result (option (list Noeud))) :=
  match fuel with
  | O => None
  | S fuel' =>
      match iteration st with
      | Raise e => Some (Raise e)
      | Ok (inr r) => Some (Ok r)
      | Ok (inl st') => boucle fuel' st'
      end
  end.

(** The variables when the loop is first entered. *)
Definition etat_initial (self : Solution) : state :=
  let racine := Noeud_init (initial self) None None in
  {| queue := [racine]; rs := ∅ ∪ {[etat racine]} |}.

(** [Solution.resoudre]. *)
Definition resoudre (self : Solution) (fuel : nat) : option (result (option (list Noeud))) :=
  boucle fuel (etat_initial self).


(** [random.choice(seq)], the random draw given as a number [k]; it raises
    [IndexError] on an empty sequence. *)
Definition choice {A : Type} (seq : list A) (k : nat) : result A :=
  match seq with
  | [] => Raise IndexError
  | _ :: _ =>
      match seq !! (k mod length seq)%nat with
      | Some x => Ok x
      | None => Raise IndexError
      end
  end.

(** The loop of [Puzzle.shuffle], one iteration per random draw in
    [tirages]. *)
Definition shuffle_pas (self : Puzzle) (tirages : list nat) : result Puzzle :=
  for_each tirages
    (fun k puzzle => acts ← actions puzzle; ma ← choice acts k; call ma.1)
    self.

(** [Puzzle.shuffle]: 50 draws, the [n]-th one being [alea n]. *)
Definition shuffle (self : Puzzle) (alea : nat -> nat) : result Puzzle :=
  shuffle_pas self (alea <$> seq 0 50).

(** ** Vocabulary of the specification *)

(** A valid board: an [n] x [n] grid holding each of [0 .. n^2 - 1] once. *)
Definition valid_board (n : nat) (t : list (list Z)) : Prop :=
  length t = n /\ Forall (fun row => length row = n) t /\
  concat t ≡ₚ seqZ 0 (Z.of_nat (n * n)).

(** A [Puzzle] object built from a valid 3 x 3 board. *)
Definition valide3 (p : Puzzle) : Prop :=
  largeur p = 3 /\ valid_board 3 (table p).

Definition grille (a b c d e f g h i : Z) : list (list Z) :=
  [[a; b; c]; [d; e; f]; [g; h; i]].

(** The canonical solved board. *)
Definition but : Puzzle := {| largeur := 3; table := grille 1 2 3 4 5 6 7 8 0 |}.

(** The solved 4 x 4 board. *)
Definition but4 : Puzzle :=
  {| largeur := 4;
     table := [[1; 2; 3; 4]; [5; 6; 7; 8]; [9; 10; 11; 12]; [13; 14; 15; 0]] |}.

(** [self.table[r][c]]. *)
Definition cell (self : Puzzle) (p : pos) : result Z :=
  row ← getitem (table self) p.1; getitem row p.2.

(** One legal move: [q] is the board that one of the closures listed by
    [p.actions] returns. *)
Definition coup (p q : Puzzle) : Prop :=
  exists ms m a, actions p = Ok ms /\ (m, a) ∈ ms /\ call m = Ok q.

(** Reachability by a finite sequence of legal moves. *)
Definition accessible : Puzzle -> Puzzle -> Prop := rtc coup.

(** The boards that the moves of [p.actions] lead to, in order; an
    executable form of [coup]. *)
Definition voisins (p : Puzzle) : list Puzzle :=
  match actions p with
  | Ok ms => omap (fun ma => match call ma.1 with Ok q => Some q | Raise _ => None end) ms
  | Raise _ => []
  end.

#[global] Instance Puzzle_eq_dec : EqDecision Puzzle.
Proof. solve_decision. Defined.

(** [l] is a sequence of boards, each one legal move after the previous
    one, starting after [p]; an executable form of [suite_legale] below. *)
Fixpoint est_suite (p : Puzzle) (l : list Puzzle) : bool :=
  match l with
  | [] => true
  | q :: l' => bool_decide (q ∈ voisins p) && est_suite q l'
  end.

Inductive suite_legale : Puzzle -> list Puzzle -> Prop :=
  | suite_nil p : suite_legale p []
  | suite_cons p q l : coup p q -> suite_legale q l -> suite_legale p (q :: l).

(** The links of a path: each node's parent is the node before it and its
    cost is one more. *)
Fixpoint liens (prec : Noeud) (l : list Noeud) : Prop :=
  match l with
  | [] => True
  | n :: l' => parent n = Some prec /\ g n = g prec + 1 /\ liens n l'
  end.

(** A path that starts at a root. *)
Definition chemin_ok (l : list Noeud) : Prop :=
  match l with
  | [] => False
  | racine :: l' => g racine = 0 /\ parent racine = None /\ liens racine l'
  end.

(** The contribution of the cell [(i, j)] holding [v] to [manhattan]. *)
Definition dist (v i j : Z) : Z :=
  if v =? 0 then 0 else Z.abs ((v - 1) `div` 3 - i) + Z.abs ((v - 1) `mod` 3 - j).

(** The effect of one [visiter] on the loop variables, given the child
    node. *)
Definition insere (st : state) (enfant : Noeud) : state :=
  if decide (etat enfant ∉ rs st)
  then {| queue := enfant :: queue st; rs := rs st ∪ {[etat enfant]} |}
  else st.

(** The variables after [k] more full iterations, if the loop runs that
    long. *)
Fixpoint apres (k : nat) (st : state) : option state :=
  match k with
  | O => Some st
  | S k' =>
      match iteration st with
      | Ok (inl st') => apres k' st'
      | _ => None
      end
  end.

(** The keys of all valid 3 x 3 boards. *)
Definition cles : gset string :=
  list_to_set ((fun l => join (str <$> l)) <$> permutations (seqZ 0 9)).

(** The quantity that decreases at each iteration on valid boards. *)
Definition mesure (st : state) : nat :=
  (2 * size (cles ∖ rs st) + length (queue st))%nat.

(** ** The search with its history

    The same loop with two ghost components that the program never reads:
    each queued node carries the number of nodes inserted before it (its
    insertion stamp), and [ghist] lists every node ever inserted, the
    latest first. *)
Record gstate : Type := mkGstate {
  gqueue : list (nat * Noeud);
  grs : gset string;
  ghist : list Noeud
}.

Definition efface (gs : gstate) : state :=
  {| queue := snd <$> gqueue gs; rs := grs gs |}.

Definition ginsere (gs : gstate) (enfant : Noeud) : gstate :=
  if decide (etat enfant ∉ grs gs)
  then {| gqueue := (length (ghist gs), enfant) :: gqueue gs;
          grs := grs gs ∪ {[etat enfant]};
          ghist := enfant :: ghist gs |}
  else gs.

Definition gvisiter (noeud : Noeud) (ma : move * string) (gs : gstate) : result gstate :=
  let '(move, action) := ma in
  pz ← call move;
  Ok (ginsere gs (Noeud_init pz (Some noeud) (Some action))).

Definition giteration (gs : gstate) : result (gstate + option (list Noeud)) :=
  match gqueue gs with
  | [] => Ok (inr None)
  | _ :: _ =>
      q ← sorted (gqueue gs) (fun e => f e.2);
      match q with
      | [] => Raise IndexError
      | (s, noeud) :: q' =>
          if Noeud_est_resolu noeud then Ok (inr (Some (chemin noeud)))
          else
            acts ← Noeud_actions noeud;
            gs' ← for_each acts (gvisiter noeud)
                    {| gqueue := q'; grs := grs gs; ghist := ghist gs |};
            Ok (inl gs')
      end
  end.

Fixpoint gapres (k : nat) (gs : gstate) : option gstate :=
  match k with
  | O => Some gs
  | S k' =>
      match giteration gs with
      | Ok (inl gs') => gapres k' gs'
      | _ => None
      end
  end.

Definition getat_initial (self : Solution) : gstate :=
  let racine := Noeud_init (initial self) None None in
  {| gqueue := [(0%nat, racine)]; grs := ∅ ∪ {[etat racine]}; ghist := [racine] |}.

(** The children that an expansion of [noeud] builds, in the order of
    [actions]. *)
Definition enfants (noeud : Noeud) (acts : list (move * string)) : result (list Noeud) :=
  mapM (fun ma : move * string =>
          pz ← call ma.1; Ok (Noeud_init pz (Some noeud) (Some ma.2))) acts.

(** The character of a decimal digit. *)
Definition chiffre (x : Z) : Ascii.ascii := Ascii.ascii_of_N (48 + Z.to_N x).

(** The grids the specification calls malformed: not square, a repeated
    value, or a number of blanks other than one. *)
Definition carre (t : list (list Z)) : Prop :=
  Forall (fun row => length row = length t) t.

Definition mal_forme (t : list (list Z)) : Prop :=
  ~ carre t \/ ~ NoDup (concat t) \/ count_occ Z.eq_dec (concat t) 0 <> 1%nat.

(** The cells of a 3 x 3 grid, and adjacency of two cells. *)
Definition dans_grille (x : pos) : Prop := 0 <= x.1 < 3 /\ 0 <= x.2 < 3.

Definition voisines (x y : pos) : Prop :=
  Z.abs (x.1 - y.1) + Z.abs (x.2 - y.2) = 1.

(** What a move listed by [p.actions] does: its closure swaps the cell
    [p1] with the adjacent blank cell [p2] of [p] in a copy, and the same
    swap on the result gives [p] back. *)
Definition coup_ok (p : Puzzle) (m : move) : Prop :=
  let p1 := move_p1 m in
  let p2 := move_p2 m in
  move_self m = p /\ dans_grille p1 /\ dans_grille p2 /\ voisines p1 p2 /\
  cell p p2 = Ok 0 /\
  exists q,
    call m = Ok q /\ valide3 q /\
    cell q p1 = Ok 0 /\ cell q p2 = cell p p1 /\
    Forall (fun x => x <> p1 -> x <> p2 -> cell q x = cell p x)
      (product (range 3) (range 3)) /\
    Puzzle_move q p1 p2 = Ok p /\
    coup q p.

(** The order that a stable sort by key establishes when elements that
    share a key were already placed according to [T]. *)
Definition ordre_tri {A : Type} (T : A -> A -> Prop) (x y : Z * A) : Prop :=
  x.1 <= y.1 /\ (x.1 = y.1 -> T x.2 y.2).

(** The decoration that [sorted] computes for a node. *)
Definition decore {A : Type} (key : A -> result Z) (x : A) : result (Z * A) :=
  k ← key x; Ok (k, x).

(** The children that pass the test [enfant.etat not in rs], in order. *)
Fixpoint acceptes (rs : gset string) (cs : list Noeud) : list Noeud :=
  match cs with
  | [] => []
  | c :: cs' =>
      if decide (etat c ∉ rs)
      then c :: acceptes (rs ∪ {[etat c]}) cs'
      else acceptes rs cs'
  end.

(** How one evaluation of the loop ends when it does not go on. *)
Definition fin (st : state) (r : result (option (list Noeud))) : Prop :=
  match r with
  | Ok v => iteration st = Ok (inr v)
  | Raise e => iteration st = Raise e
  end.

(** [resoudre] on [p] returns a path, and never the absent result. *)
Definition trouve_chemin (p : Puzzle) : Prop :=
  (exists fuel path, resoudre (mkSolution p) fuel = Some (Ok (Some path))) /\
  (forall fuel r, resoudre (mkSolution p) fuel = Some r -> exists path, r = Ok (Some path)).

(** Every valid board whose key is in [rs] is either still queued or was
    expanded: it is not solved and all its successors have their key in
    [rs]. *)
Definition clos (st : state) : Prop :=
  forall q, valide3 q -> Puzzle_str q ∈ rs st ->
    (exists n, n ∈ queue st /\ puzzle n = q) \/
    (est_resolu q = false /\ forall q', coup q q' -> Puzzle_str q' ∈ rs st).

(** The stamps that nodes inserted in this order receive when [h] nodes
    were inserted before them. *)
Definition estampille (h : nat) (l : list Noeud) : list (nat * Noeud) :=
  imap (fun i c => ((h + i)%nat, c)) l.

(** Among queued nodes of equal [f], the one nearer the left end was
    inserted later. *)
Definition plus_recent (x y : nat * Noeud) : Prop :=
  f x.2 = f y.2 -> (y.1 < x.1)%nat.

(** The visited set and the history: [rs] holds exactly the keys of the
    nodes inserted so far, no two inserted nodes share a key, every queued
    node was inserted, and queued nodes have distinct keys. *)
Definition visite_ok (gs : gstate) : Prop :=
  grs gs = list_to_set (etat <$> ghist gs) /\
  NoDup (etat <$> ghist gs) /\
  (forall e, e ∈ gqueue gs -> e.2 ∈ ghist gs) /\
  NoDup (etat <$> (snd <$> gqueue gs)).

(** [x] leaves the sorted queue before [y]: its [f] is not larger, and when
    both are equal it was inserted later. *)
Definition avant (x y : nat * Noeud) : Prop :=
  exists kx ky, f x.2 = Ok kx /\ f y.2 = Ok ky /\ kx <= ky /\
                (kx = ky -> (y.1 < x.1)%nat).

(** The order the queue keeps between iterations: among nodes of equal [f]
    the later inserted one is nearer the left end; stamps are distinct and
    smaller than the number of nodes inserted so far. *)
Definition ordre_file (gs : gstate) : Prop :=
  StronglySorted plus_recent (gqueue gs) /\
  Forall (fun e => (e.1 < length (ghist gs))%nat) (gqueue gs) /\
  NoDup (fst <$> gqueue gs).

(** The step from a node to the next one of a path: the board of [b] is
    what a move listed by the [actions] of the board of [a] returns, and [b]
    carries the label of that move. *)
Definition pas_legal (a b : Noeud) : Prop :=
  exists ms m lab,
    actions (puzzle a) = Ok ms /\ (m, lab) ∈ ms /\
    call m = Ok (puzzle b) /\ action b = Some lab.

Fixpoint suite_noeuds (prec : Noeud) (l : list Noeud) : Prop :=
  match l with
  | [] => True
  | n :: l' => pas_legal prec n /\ suite_noeuds n l'
  end.

(** A path that starts at the board [p] and only makes legal moves. *)
Definition solution_de (p : Puzzle) (l : list Noeud) : Prop :=
  match l with
  | [] => False
  | racine :: l' => puzzle racine = p /\ action racine = None /\ suite_noeuds racine l'
  end.

(** The subscript that Python reads for [l[i]] on a list of length [n]. *)
Definition indice (n : nat) (i : Z) : option nat :=
  let k := if i <? 0 then i + Z.of_nat n else i in
  if (0 <=? k) && (k <? Z.of_nat n) then Some (Z.to_nat k) else None.

(** The grid has the 3 x 3 corner that [manhattan] reads: at least three
    rows, the first three with at least three cells. *)
Definition coin3 (t : list (list Z)) : Prop :=
  (3 <= length t)%nat /\ Forall (fun row => (3 <= length row)%nat) (take 3 t).

(** Cells of a grid by natural-number coordinates: [lit] reads one,
    [ecrit] replaces one, [place] gives the coordinates that a Python
    position [(i, j)] (possibly negative) designates. *)
Definition lit (t : list (list Z)) (I J : nat) : option Z :=
  row ← t !! I; row !! J.

Definition ecrit (t : list (list Z)) (I J : nat) (v : Z) : list (list Z) :=
  alter (fun row => <[J := v]> row) I t.

Definition place (t : list (list Z)) (x : pos) : option (nat * nat) :=
  I ← indice (length t) x.1;
  row ← t !! I;
  J ← indice (length row) x.2;
  Some (I, J).

(** Two valid 4 x 4 boards with the same key. *)
Definition alias4 : Puzzle :=
  {| largeur := 4;
     table := [[12; 3; 4; 5]; [6; 7; 8; 9]; [10; 11; 1; 2]; [13; 14; 15; 0]] |}.

(** ** Printing and the script at the end of the file *)

(** [str(row)] for a list of integers, the text that [print(row)] writes. *)
Definition str_liste (l : list Z) : string :=
  ("[" +:+ String.concat ", " (map str l) +:+ "]")%string.

(** [Puzzle.pprint], as the lines it writes: one per row, then an empty
    one. *)
Definition pprint (self : Puzzle) : list string :=
  map str_liste (table self) ++ [""%string].

(** The text that [print(noeud.action)] writes. *)
Definition str_action (a : option string) : string :=
  match a with
  | None => "None"%string
  | Some s => s
  end.

(** How the script can stop early: an exception of the calls it makes, or
    the [TypeError] of [for noeud in p] when [p] is [None]. *)
Inductive erreur_script : Type :=
  | Leve (e : exception)
  | TypeError.

(** The body of [for noeud in p]: two prints and [steps += 1]. *)
Definition script_noeud (acc : list string * Z) (noeud : Noeud) : list string * Z :=
  (acc.1 ++ [str_action (action noeud)] ++ pprint (puzzle noeud), acc.2 + 1).

(** The script at the end of [Taquin.py]: the lines written and how it
    stops, for the draws [alea] of [shuffle].  The wall-clock time is
    outside the model: [duree] stands for the text of
    [str(t_final - t_init)].  [None] when [fuel] does not suffice for the
    search. *)
Definition script (alea : nat -> nat) (fuel : nat) (duree : string)
  : option (list string * option erreur_script) :=
  match Puzzle_init (grille 1 2 3 4 5 6 7 8 0) with
  | Raise e => Some ([], Some (Leve e))
  | Ok puzzle0 =>
      let sortie := ["Puzzle avant melange : "%string] ++ pprint puzzle0 in
      match shuffle puzzle0 alea with
      | Raise e => Some (sortie, Some (Leve e))
      | Ok puzzle =>
          let sortie := sortie ++ ["Puzzle apres melange : "%string] ++ pprint puzzle in
          match resoudre (mkSolution puzzle) fuel with
          | None => None
          | Some (Raise e) => Some (sortie, Some (Leve e))
          | Some (Ok None) => Some (sortie, Some TypeError)
          | Some (Ok (Some p)) =>
              let fin_boucle := fold_left script_noeud p (sortie, 0) in
              Some (fin_boucle.1 ++
                    [("Nombre de déplacements: " +:+ str fin_boucle.2)%string;
                     ("Durée de la recherche: " +:+ duree +:+ " second(s)")%string],
                    None)
          end
      end
  end.

(** ** Boards used as examples *)

(** The solved 2 x 2 board. *)
Definition but2 : Puzzle := {| largeur := 2; table := [[1; 2]; [3; 0]] |}.

(** A starting board with the blank in the middle. *)
Definition depart : Puzzle := {| largeur := 3; table := grille 1 3 5 4 0 8 7 6 2 |}.

(** The queue as a run shows it: the insertion stamp, [f] and the action of
    each queued node, from the left end. *)
Definition vue (gs : gstate) : list (nat * result Z * option string) :=
  (fun e : nat * Noeud => (e.1, f e.2, action e.2)) <$> gqueue gs.

(** * Properties *)

(** ** The error monad and the loops *)

Lemma bind_Ok {A B : Type} (m : result A) (k : A -> result B) (b : B) :
  m ≫= k = Ok b <-> exists a, m = Ok a /\ k a = Ok b.
Proof.
  destruct m as [a|e]; simpl.
  - split; [eauto | intros (a' & [= <-] & H); exact H].
  - split; [discriminate | intros (a' & [=] & _)].
Qed.

Lemma for_each_app {A S : Type} (l1 l2 : list A) (body : A -> S -> result S) (s : S) :
  for_each (l1 ++ l2) body s = for_each l1 body s ≫= for_each l2 body.
Proof.
  revert s; induction l1 as [|x l1 IH]; intros s; simpl; [done|].
  destruct (body x s) as [s'|e]; simpl; [apply IH | done].
Qed.

(** A loop whose body never raises is a left fold. *)
Lemma for_each_pure {A S : Type} (l : list A) (body : A -> S -> result S)
  (pas : S -> A -> S) (s : S) :
  (forall x s, x ∈ l -> body x s = Ok (pas s x)) ->
  for_each l body s = Ok (fold_left pas l s).
Proof.
  revert s; induction l as [|x l IH]; intros s Hb; simpl; [done|].
  rewrite Hb by left. simpl. apply IH. intros y s' Hy. apply Hb. by right.
Qed.

(** ** Construction of a [Puzzle] *)

Lemma getitem_0 {A : Type} (x : A) (l : list A) : getitem (x :: l) 0 = Ok x.
Proof.
  unfold getitem. simpl (0 <? 0).  cbv iota.
  replace ((0 <=? 0) && (0 <? Z.of_nat (length (x :: l)))) with true; [done|].
  symmetry. apply andb_true_iff. split; [done|]. apply Z.ltb_lt. simpl; lia.
Qed.

Lemma Puzzle_init_spec (t : list (list Z)) :
  Puzzle_init t =
  match t with
  | [] => Raise IndexError
  | row0 :: _ => Ok {| largeur := Z.of_nat (length row0); table := t |}
  end.
Proof.
  destruct t as [|row0 t]; [done|].
  unfold Puzzle_init. by rewrite getitem_0.
Qed.

(** C9 (as stated, refuted): grids that are not square, that repeat a value,
    that hold no blank or two blanks are all accepted by the constructor. *)
Lemma Puzzle_init_accepte_mal_forme :
  (mal_forme [[1; 2; 3]; [4; 0]] /\ exists p, Puzzle_init [[1; 2; 3]; [4; 0]] = Ok p) /\
  (mal_forme [[1; 1]; [0; 2]] /\ exists p, Puzzle_init [[1; 1]; [0; 2]] = Ok p) /\
  (mal_forme [[1; 2]; [3; 4]] /\ exists p, Puzzle_init [[1; 2]; [3; 4]] = Ok p) /\
  (mal_forme [[0; 0]; [1; 2]] /\ exists p, Puzzle_init [[0; 0]; [1; 2]] = Ok p).
Proof.
  repeat split; try (eexists; reflexivity).
  - left. intros H. apply Forall_cons in H as [H _]. discriminate H.
  - right; left. intros H. apply NoDup_cons in H as [H _]. apply H. left.
  - right; right. vm_compute. discriminate.
  - right; right. vm_compute. discriminate.
Qed.

(** C9 (amended): the constructor validates nothing.  On every non-empty
    list of rows it succeeds, keeps the grid as it is and takes the length of
    the first row as the width; only the empty list fails, with the
    [IndexError] of [table[0]]. *)
Theorem Puzzle_init_sans_validation (t : list (list Z)) :
  (t = [] -> Puzzle_init t = Raise IndexError) /\
  (forall row0 t', t = row0 :: t' ->
     Puzzle_init t = Ok {| largeur := Z.of_nat (length row0); table := t |}).
Proof.
  rewrite Puzzle_init_spec. split.
  - by intros ->.
  - by intros row0 t' ->.
Qed.

Lemma Puzzle_init_sans_validation_witness :
  Puzzle_init [] = Raise IndexError /\
  Puzzle_init [[1; 1]; [0]] = Ok {| largeur := 2; table := [[1; 1]; [0]] |}.
Proof.
  split.
  - apply (proj1 (Puzzle_init_sans_validation [])). reflexivity.
  - apply (proj2 (Puzzle_init_sans_validation [[1; 1]; [0]]) [1; 1] [[0]]). reflexivity.
Defined.

(** ** Keys of boards *)

Lemma str_chiffre (x : Z) :
  0 <= x <= 9 -> str x = String (chiffre x) EmptyString.
Proof.
  intros H.
  assert (x = 0 \/ x = 1 \/ x = 2 \/ x = 3 \/ x = 4 \/ x = 5 \/ x = 6 \/ x = 7 \/
          x = 8 \/ x = 9) as Hx by lia.
  repeat destruct Hx as [-> | Hx]; try subst x; reflexivity.
Qed.

Lemma chiffre_inj (x y : Z) :
  0 <= x <= 9 -> 0 <= y <= 9 -> chiffre x = chiffre y -> x = y.
Proof.
  intros Hx Hy H. unfold chiffre in H.
  apply (f_equal Ascii.N_of_ascii) in H.
  rewrite !Ascii.N_ascii_embedding in H by lia. lia.
Qed.

Lemma join_chiffres (l : list Z) :
  Forall (fun x => 0 <= x <= 9) l ->
  join (str <$> l) = String.string_of_list_ascii (chiffre <$> l).
Proof.
  induction 1 as [|x l Hx Hl IH]; [done|].
  destruct l as [|y l].
  - simpl. by rewrite str_chiffre.
  - change (join (str <$> x :: y :: l))
      with (str x +:+ (EmptyString +:+ join (str <$> y :: l))).
    rewrite IH, str_chiffre by done. reflexivity.
Qed.

Lemma join_chiffres_inj (l1 l2 : list Z) :
  Forall (fun x => 0 <= x <= 9) l1 -> Forall (fun x => 0 <= x <= 9) l2 ->
  join (str <$> l1) = join (str <$> l2) -> l1 = l2.
Proof.
  intros H1 H2 H. rewrite !join_chiffres in H by done.
  apply (f_equal String.list_ascii_of_string) in H.
  rewrite !String.list_ascii_of_string_of_list_ascii in H.
  revert l2 H2 H. induction H1 as [|x l1 Hx _ IH]; intros [|y l2] H2 H;
    try discriminate; [done|].
  apply Forall_cons in H2 as [Hy H2]. injection H as Hxy H.
  f_equal; [by apply chiffre_inj | by apply IH].
Qed.

(** ** Valid 3 x 3 boards *)

Lemma valide3_grille (p : Puzzle) :
  valide3 p ->
  exists a b c d e f g h i,
    p = {| largeur := 3; table := grille a b c d e f g h i |} /\
    [a; b; c; d; e; f; g; h; i] ≡ₚ seqZ 0 9.
Proof.
  destruct p as [n t]. intros [Hn (Hlen & Hrows & Hperm)]. simpl in *. subst n.
  destruct t as [|r1 [|r2 [|r3 [|? ?]]]]; try discriminate Hlen.
  apply Forall_cons in Hrows as [H1 Hrows].
  apply Forall_cons in Hrows as [H2 Hrows].
  apply Forall_cons in Hrows as [H3 _].
  destruct r1 as [|a [|b [|c [|? ?]]]]; try discriminate H1.
  destruct r2 as [|d [|e [|f [|? ?]]]]; try discriminate H2.
  destruct r3 as [|g [|h [|i [|? ?]]]]; try discriminate H3.
  exists a, b, c, d, e, f, g, h, i. split; [reflexivity | exact Hperm].
Qed.

Lemma grille_valide3 (a b c d e f g h i : Z) :
  [a; b; c; d; e; f; g; h; i] ≡ₚ seqZ 0 9 ->
  valide3 {| largeur := 3; table := grille a b c d e f g h i |}.
Proof.
  intros H. split; [done|]. split; [done|]. split; [|exact H].
  by repeat constructor.
Qed.

Lemma perm9_bornes (l : list Z) :
  l ≡ₚ seqZ 0 9 -> Forall (fun x => 0 <= x <= 9) l.
Proof.
  intros H. rewrite H. apply Forall_seqZ. intros; lia.
Qed.

(** A valid board has its blank at one place [k] and positive tiles
    elsewhere. *)
Lemma perm9_trou (l : list Z) :
  l ≡ₚ seqZ 0 9 ->
  exists (k : nat) (ps : list positive),
    (k < 9)%nat /\ length ps = 8%nat /\
    l = take k (Z.pos <$> ps) ++ 0 :: drop k (Z.pos <$> ps).
Proof.
  intros H.
  assert (0 ∈ l) as H0 by (rewrite H; apply elem_of_seqZ; lia).
  assert (NoDup l) as Hnd by (rewrite H; apply NoDup_seqZ).
  assert (length l = 9%nat) as Hlen by (by rewrite H).
  assert (Forall (fun x => 0 <= x) l) as Hpos
    by (rewrite H; apply Forall_seqZ; intros; lia).
  apply list_elem_of_split in H0 as (l1 & l2 & ->).
  apply NoDup_app in Hnd as (Hnd1 & Hnd12 & Hnd2).
  apply NoDup_cons in Hnd2 as [Hnd2 _].
  rewrite length_app in Hlen. simpl in Hlen.
  assert (forall m, Forall (fun x => 0 <= x) m -> 0 ∉ m -> Z.pos <$> (Z.to_pos <$> m) = m)
    as Hm.
  { induction 1 as [|x m Hx _ IH]; intros Hn; [done|].
    apply not_elem_of_cons in Hn as [Hx0 Hn]. rewrite !fmap_cons, IH by done.
    f_equal. lia. }
  exists (length l1), (Z.to_pos <$> (l1 ++ l2)).
  split; [lia|]. split; [rewrite length_fmap, length_app; lia|].
  rewrite (Hm (l1 ++ l2)).
  - by rewrite take_app_length, drop_app_length.
  - apply Forall_app in Hpos as [Hp1 Hp2]. apply Forall_cons in Hp2 as [_ Hp2].
    by apply Forall_app.
  - intros Hin. apply elem_of_app in Hin as [Hin|Hin]; [|done].
    apply (Hnd12 0 Hin). left.
Qed.

(** Case analysis on the place of the blank of a valid 3 x 3 board: nine
    goals with a concrete [0] and tiles of the form [Z.pos _]. *)
Ltac cas_place k Hk Heq n :=
  lazymatch n with
  | O => exfalso; clear -Hk; lia
  | S ?n' =>
      destruct k as [|k];
      [ simpl in Heq; injection Heq as -> -> -> -> -> -> -> -> ->; clear Hk
      | cas_place k Hk Heq n' ]
  end.

Ltac cas_trou H :=
  let k := fresh "k" in let ps := fresh "ps" in
  let Hk := fresh in let Hps := fresh in let Heq := fresh in
  destruct (perm9_trou _ H) as (k & ps & Hk & Hps & Heq);
  do 9 (destruct ps as [|? ps]; try discriminate Hps); clear Hps;
  cas_place k Hk Heq 9%nat.
Lemma Puzzle_str_inj (p q : Puzzle) :
  valide3 p -> valide3 q -> Puzzle_str p = Puzzle_str q -> p = q.
Proof.
  intros Hp Hq H.
  destruct (valide3_grille p Hp) as (a & b & c & d & e & f & g & h & i & -> & Pp).
  destruct (valide3_grille q Hq) as (a' & b' & c' & d' & e' & f' & g' & h' & i' & -> & Pq).
  apply (join_chiffres_inj [a; b; c; d; e; f; g; h; i]
           [a'; b'; c'; d'; e'; f'; g'; h'; i']) in H; [| by apply perm9_bornes ..].
  by injection H as -> -> -> -> -> -> -> -> ->.
Qed.

Lemma but_valide3 : valide3 but.
Proof.
  apply grille_valide3.
  apply (Permutation_app_comm [1; 2; 3; 4; 5; 6; 7; 8] [0]).
Qed.

Lemma est_resolu_but (p : Puzzle) : valide3 p -> est_resolu p = true <-> p = but.
Proof.
  intros Hp. unfold est_resolu. rewrite bool_decide_eq_true.
  replace (largeur p) with 3 by (symmetry; apply Hp).
  change (join (map str (range2 1 (3 * 3))) +:+ "0"%string) with (Puzzle_str but).
  split; [| by intros ->].
  apply Puzzle_str_inj; [done | apply but_valide3].
Qed.

(** C10: on valid 3 x 3 boards the key decides board equality.  Two boards
    have the same [str] exactly when they are the same board; so two nodes
    have the same [etat] exactly when they hold the same board, and
    [est_resolu] holds exactly of the canonical solved board. *)
Theorem cle_decide_egalite (p q : Puzzle) (Hp : valide3 p) (Hq : valide3 q) :
  (Puzzle_str p = Puzzle_str q <-> table p = table q) /\
  (forall n m : Noeud, puzzle n = p -> puzzle m = q ->
     (etat n = etat m <-> puzzle n = puzzle m)) /\
  (est_resolu p = true <-> table p = grille 1 2 3 4 5 6 7 8 0).
Proof.
  assert (forall p q, valide3 p -> valide3 q -> table p = table q -> p = q) as Htab.
  { intros [n1 t1] [n2 t2] [H1 _] [H2 _] Ht. simpl in *. congruence. }
  split; [|split].
  - split; [intros H; f_equal; by apply Puzzle_str_inj | intros H].
    by rewrite (Htab p q).
  - intros n m Hn Hm. unfold etat, Noeud_str. rewrite Hn, Hm.
    split; [by apply Puzzle_str_inj | by intros ->].
  - rewrite est_resolu_but by done. split; [by intros -> | intros H].
    apply Htab; [done | apply but_valide3 | exact H].
Qed.

Lemma cle_decide_egalite_witness :
  (Puzzle_str but = Puzzle_str but <-> table but = table but) /\
  (forall n m : Noeud, puzzle n = but -> puzzle m = but ->
     (etat n = etat m <-> puzzle n = puzzle m)) /\
  (est_resolu but = true <-> table but = grille 1 2 3 4 5 6 7 8 0).
Proof.
  apply (cle_decide_egalite but but).
  - split; [reflexivity|]. split; [reflexivity|]. split.
    + repeat constructor.
    + apply (Permutation_app_comm [1; 2; 3; 4; 5; 6; 7; 8] [0]).
  - split; [reflexivity|]. split; [reflexivity|]. split.
    + repeat constructor.
    + apply (Permutation_app_comm [1; 2; 3; 4; 5; 6; 7; 8] [0]).
Defined.

(** C8 at a valid 4 x 4 board: the solved board has a non-zero
    [manhattan]. *)
Theorem manhattan_but4 :
  valid_board 4 (table but4) /\ est_resolu but4 = true /\ manhattan but4 = Ok 11.
Proof.
  split; [|split; reflexivity].
  split; [reflexivity|]. split; [by repeat constructor|].
  apply (Permutation_app_comm [1; 2; 3; 4; 5; 6; 7; 8; 9; 10; 11; 12; 13; 14; 15] [0]).
Qed.

(** ** [manhattan] on 3 x 3 grids *)

Lemma manhattan_cellule (t : list (list Z)) (row : list Z) (i j v d : Z) :
  getitem t i = Ok row -> getitem row j = Ok v ->
  (row ← getitem t i;
   v ← getitem row j;
   if negb (v =? 0)
   then let '(x, y) := divmod (v - 1) 3 in
        Ok (d + (Z.abs (x - i) + Z.abs (y - j)))
   else Ok d) = Ok (d + dist v i j).
Proof.
  intros -> Hv. cbn [mbind result_bind]. rewrite Hv. cbn [mbind result_bind].
  unfold dist, divmod. destruct (v =? 0); cbn [negb]; f_equal; lia.
Qed.

Lemma manhattan_grille (n a b c d e f g h i : Z) :
  manhattan {| largeur := n; table := grille a b c d e f g h i |} =
  Ok (dist a 0 0 + dist b 0 1 + dist c 0 2 +
      dist d 1 0 + dist e 1 1 + dist f 1 2 +
      dist g 2 0 + dist h 2 1 + dist i 2 2).
Proof.
  unfold manhattan. change (range 3) with [0; 1; 2].
  cbn [for_each table].
  rewrite (manhattan_cellule _ [a; b; c] 0 0 a) by reflexivity. cbn [mbind result_bind].
  rewrite (manhattan_cellule _ [a; b; c] 0 1 b) by reflexivity. cbn [mbind result_bind].
  rewrite (manhattan_cellule _ [a; b; c] 0 2 c) by reflexivity. cbn [mbind result_bind].
  rewrite (manhattan_cellule _ [d; e; f] 1 0 d) by reflexivity. cbn [mbind result_bind].
  rewrite (manhattan_cellule _ [d; e; f] 1 1 e) by reflexivity. cbn [mbind result_bind].
  rewrite (manhattan_cellule _ [d; e; f] 1 2 f) by reflexivity. cbn [mbind result_bind].
  rewrite (manhattan_cellule _ [g; h; i] 2 0 g) by reflexivity. cbn [mbind result_bind].
  rewrite (manhattan_cellule _ [g; h; i] 2 1 h) by reflexivity. cbn [mbind result_bind].
  rewrite (manhattan_cellule _ [g; h; i] 2 2 i) by reflexivity. cbn [mbind result_bind].
  f_equal.
Qed.

Lemma dist_pos (v i j : Z) : 0 <= dist v i j.
Proof. unfold dist. destruct (v =? 0); lia. Qed.

Lemma dist_nul (v i j : Z) :
  0 <= v <= 8 -> 0 <= i < 3 -> 0 <= j < 3 ->
  dist v i j = 0 <-> v = 0 \/ v = 3 * i + j + 1.
Proof.
  intros Hv Hi Hj. unfold dist. destruct (Z.eqb_spec v 0) as [->|Hne]; [intuition lia|].
  pose proof (Z.div_mod (v - 1) 3 ltac:(lia)) as Hdm.
  pose proof (Z.mod_pos_bound (v - 1) 3 ltac:(lia)) as Hm.
  split; intros H; [right | destruct H as [H|H]; [lia|]]; lia.
Qed.

(** On valid 3 x 3 boards [manhattan] returns, and returns [0] exactly on
    the solved board. *)
Lemma manhattan_valide3 (p : Puzzle) :
  valide3 p ->
  exists k, manhattan p = Ok k /\ 0 <= k /\ (k = 0 <-> est_resolu p = true).
Proof.
  intros Hp. pose proof (est_resolu_but p Hp) as Hbut.
  destruct (valide3_grille p Hp) as (a & b & c & d & e & f & g & h & i & -> & Hperm).
  rewrite manhattan_grille. eexists; split; [reflexivity|]. rewrite Hbut.
  pose proof (dist_pos a 0 0). pose proof (dist_pos b 0 1). pose proof (dist_pos c 0 2).
  pose proof (dist_pos d 1 0). pose proof (dist_pos e 1 1). pose proof (dist_pos f 1 2).
  pose proof (dist_pos g 2 0). pose proof (dist_pos h 2 1). pose proof (dist_pos i 2 2).
  split; [lia|]. split.
  - intros Hzero.
    assert (Forall (fun x => 0 <= x <= 8) [a; b; c; d; e; f; g; h; i]) as Hb
      by (rewrite Hperm; apply Forall_seqZ; intros; lia).
    assert (NoDup [a; b; c; d; e; f; g; h; i]) as Hnd
      by (rewrite Hperm; apply NoDup_seqZ).
    repeat (apply Forall_cons in Hb as [? Hb]).
    assert (dist a 0 0 = 0 /\ dist b 0 1 = 0 /\ dist c 0 2 = 0 /\ dist d 1 0 = 0 /\
            dist e 1 1 = 0 /\ dist f 1 2 = 0 /\ dist g 2 0 = 0 /\ dist h 2 1 = 0 /\
            dist i 2 2 = 0) as (Da & Db & Dc & Dd & De & Df & Dg & Dh & Di) by lia.
    apply dist_nul in Da, Db, Dc, Dd, De, Df, Dg, Dh, Di; try lia.
    assert (i = 0) as -> by lia.
    assert (forall x, x ∈ [a; b; c; d; e; f; g; h] -> x <> 0) as Hnz.
    { intros x Hx ->. 
      assert (NoDup ([a; b; c; d; e; f; g; h] ++ [0])) as Hnd' by exact Hnd.
      apply NoDup_app in Hnd' as (_ & Hnd' & _). apply (Hnd' 0 Hx). left. }
    assert (a <> 0 /\ b <> 0 /\ c <> 0 /\ d <> 0 /\ e <> 0 /\ f <> 0 /\ g <> 0 /\ h <> 0)
      as (?&?&?&?&?&?&?&?) by (repeat split; apply Hnz; repeat constructor).
    unfold but, grille. repeat f_equal; lia.
  - intros [= -> -> -> -> -> -> -> -> ->]. reflexivity.
Qed.
Lemma perm_swap3 {A : Type} (x y u v : A) (l : list A) :
  y :: u :: v :: x :: l ≡ₚ x :: u :: v :: y :: l.
Proof.
  change (y :: [u; v] ++ x :: l ≡ₚ x :: [u; v] ++ y :: l).
  rewrite <- !Permutation_middle. apply Permutation_swap.
Qed.

Ltac perm_echange :=
  repeat first
    [ reflexivity | apply Permutation_skip | apply Permutation_swap | apply perm_swap3 ].


Lemma coup_voisins (p q : Puzzle) : coup p q <-> q ∈ voisins p.
Proof.
  unfold coup, voisins. split.
  - intros (ms & m & a & -> & Hin & Hcall).
    apply list_elem_of_omap. exists (m, a). split; [done|]. simpl. by rewrite Hcall.
  - destruct (actions p) as [ms|]; [|by intros ?%not_elem_of_nil].
    intros ([m a] & Hin & Hcall)%list_elem_of_omap. simpl in Hcall.
    exists ms, m, a. split; [done|]. split; [done|].
    destruct (call m); congruence.
Qed.

(** One move of a concrete case: every component is computed. *)
Ltac verifie_coup H :=
  unfold coup_ok; cbn [fst move_p1 move_p2 move_self];
  split; [reflexivity|];
  split; [unfold dans_grille; simpl; lia|];
  split; [unfold dans_grille; simpl; lia|];
  split; [unfold voisines; simpl; lia|];
  split; [reflexivity|];
  eexists; split; [vm_compute; reflexivity|];
  split; [apply grille_valide3; etrans; [|exact H]; perm_echange|];
  split; [reflexivity|];
  split; [reflexivity|];
  split;
  [ let l := eval vm_compute in (product (range 3) (range 3)) in
    change (product (range 3) (range 3)) with l;
    repeat apply Forall_cons_2; try apply Forall_nil_2;
    intros ? ?; first [reflexivity | congruence] |];
  split; [reflexivity|];
  apply coup_voisins; vm_compute;
  repeat first [apply list_elem_of_here | apply list_elem_of_further].

(** The moves of a valid 3 x 3 board. *)
Lemma actions_valide3 (p : Puzzle) :
  valide3 p ->
  exists ms, actions p = Ok ms /\ (2 <= length ms <= 4)%nat /\
   Forall (fun ma => coup_ok p ma.1) ms.
Proof.
  intros Hp.
  destruct (valide3_grille p Hp) as (a & b & c & d & e & f & g & h & i & -> & H).
  cas_trou H;
    (eexists; split; [vm_compute; reflexivity|]; split; [simpl; lia|];
     repeat apply Forall_cons_2; try apply Forall_nil_2; verifie_coup H).
Qed.
(** ** [sorted] *)

Lemma mapM_Ok {A B : Type} (fn : A -> result B) (l : list A) (k : list B) :
  mapM fn l = Ok k <-> Forall2 (fun x y => fn x = Ok y) l k.
Proof.
  revert k; induction l as [|x l IH]; intros k; simpl.
  - split; [intros [= <-]; constructor | by inversion 1].
  - split.
    + intros (y & Hy & H)%bind_Ok. apply bind_Ok in H as (k' & Hk' & [= <-]).
      constructor; [done | by apply IH].
    + inversion 1 as [|? y ? k' Hy Hk']; subst. rewrite Hy. simpl.
      apply IH in Hk'. by rewrite Hk'.
Qed.

Lemma mapM_decore {A : Type} (key : A -> result Z) (l : list A) (deco : list (Z * A)) :
  mapM (decore key) l = Ok deco ->
  snd <$> deco = l /\ Forall (fun d => key d.2 = Ok d.1) deco.
Proof.
  rewrite mapM_Ok. induction 1 as [|x [k y] l deco Hx _ IH]; [done|].
  apply bind_Ok in Hx as (k' & Hk' & [= -> ->]). destruct IH as [IH1 IH2].
  split; [by rewrite fmap_cons, IH1 | by constructor].
Qed.

Lemma mapM_decore_Ok {A : Type} (key : A -> result Z) (l : list A) :
  Forall (fun x => exists k, key x = Ok k) l ->
  exists deco, mapM (decore key) l = Ok deco.
Proof.
  induction 1 as [|x l [k Hk] _ [deco IH]]; [by exists []|].
  exists ((k, x) :: deco). apply mapM_Ok. constructor; [|by apply mapM_Ok].
  unfold decore. by rewrite Hk.
Qed.

Lemma insert_by_key_perm {A : Type} (x : Z * A) (l : list (Z * A)) :
  insert_by_key x l ≡ₚ x :: l.
Proof.
  induction l as [|y l IH]; simpl; [done|].
  destruct (x.1 <=? y.1); [done|]. rewrite IH. apply Permutation_swap.
Qed.

Lemma sort_by_key_perm {A : Type} (l : list (Z * A)) : sort_by_key l ≡ₚ l.
Proof.
  induction l as [|x l IH]; simpl; [done|].
  rewrite insert_by_key_perm. by f_equiv.
Qed.

Lemma insert_by_key_sorted {A : Type} (T : A -> A -> Prop) (x : Z * A) (l : list (Z * A)) :
  StronglySorted (ordre_tri T) l -> Forall (fun y => T x.2 y.2) l ->
  StronglySorted (ordre_tri T) (insert_by_key x l).
Proof.
  induction 1 as [|y l Hl IH Hy]; intros Hx; simpl.
  - repeat constructor.
  - apply Forall_cons in Hx as [Hxy Hx].
    destruct (Z.leb_spec (x.1) (y.1)) as [Hle|Hlt].
    + constructor; [by constructor|]. constructor; [by split|].
      apply Forall_forall. intros z Hz. rewrite Forall_forall in Hy, Hx.
      destruct (Hy z Hz) as [Hyz _]. split; [lia | intros _; by apply Hx].
    + constructor; [by apply IH|]. rewrite insert_by_key_perm.
      constructor; [|done]. split; lia.
Qed.

(** Stability of the sort: the result is ordered by key, and elements with
    equal keys stay in the order [T] they had. *)
Lemma sort_by_key_sorted {A : Type} (T : A -> A -> Prop) (l : list (Z * A)) :
  StronglySorted (fun x y => T x.2 y.2) l ->
  StronglySorted (ordre_tri T) (sort_by_key l).
Proof.
  induction 1 as [|x l Hl IH Hx]; simpl; [constructor|].
  apply insert_by_key_sorted; [done|]. by rewrite sort_by_key_perm.
Qed.

Lemma insert_by_key_fmap {A B : Type} (fn : A -> B) (x : Z * A) (l : list (Z * A)) :
  insert_by_key (prod_map id fn x) (prod_map id fn <$> l) =
  prod_map id fn <$> insert_by_key x l.
Proof.
  induction l as [|y l IH]; [done|].
  rewrite fmap_cons. cbn [insert_by_key].
  change ((prod_map id fn x).1) with (x.1). change ((prod_map id fn y).1) with (y.1).
  destruct (x.1 <=? y.1); [done|]. by rewrite fmap_cons, IH.
Qed.

Lemma sort_by_key_fmap {A B : Type} (fn : A -> B) (l : list (Z * A)) :
  sort_by_key (prod_map id fn <$> l) = prod_map id fn <$> sort_by_key l.
Proof.
  induction l as [|x l IH]; [done|].
  change (insert_by_key (prod_map id fn x) (sort_by_key (prod_map id fn <$> l)) =
          prod_map id fn <$> insert_by_key x (sort_by_key l)).
  by rewrite IH, insert_by_key_fmap.
Qed.

Lemma sorted_Ok {A : Type} (key : A -> result Z) (l q : list A) :
  sorted l key = Ok q <->
  exists deco, mapM (decore key) l = Ok deco /\ q = snd <$> sort_by_key deco.
Proof.
  unfold sorted. fold (decore key). rewrite bind_Ok.
  split; intros (deco & H1 & H2); exists deco; (split; [done|]); congruence.
Qed.

Lemma sorted_perm {A : Type} (key : A -> result Z) (l q : list A) :
  sorted l key = Ok q -> q ≡ₚ l.
Proof.
  intros (deco & H1 & ->)%sorted_Ok. apply mapM_decore in H1 as [<- _].
  by rewrite sort_by_key_perm.
Qed.
(** ** One iteration of the search loop *)

Lemma visiter_insere (noeud : Noeud) (m : move) (a : string) (st : state) :
  visiter noeud (m, a) st =
  (pz ← call m; Ok (insere st (Noeud_init pz (Some noeud) (Some a)))).
Proof.
  unfold visiter, insere. destruct (call m) as [pz|e]; [simpl|done].
  by destruct (decide _).
Qed.

(** The expansion loop inserts the children one after the other. *)
Lemma for_each_visiter (noeud : Noeud) (acts : list (move * string)) (st : state) :
  for_each acts (visiter noeud) st =
  (cs ← enfants noeud acts; Ok (fold_left insere cs st)).
Proof.
  revert st; induction acts as [|[m a] acts IH]; intros st; [done|].
  cbn [for_each]. rewrite visiter_insere. unfold enfants. cbn [mapM fst snd].
  destruct (call m) as [pz|e]; [|done]. cbn [mbind result_bind].
  rewrite IH. unfold enfants. by destruct (mapM _ acts).
Qed.

Lemma enfants_Forall2 (noeud : Noeud) (acts : list (move * string)) (cs : list Noeud) :
  enfants noeud acts = Ok cs <->
  Forall2 (fun ma c => exists pz, call ma.1 = Ok pz /\
                                  c = Noeud_init pz (Some noeud) (Some ma.2)) acts cs.
Proof.
  unfold enfants. rewrite mapM_Ok.
  split; intros H; (eapply Forall2_impl; [exact H|]); intros ma c; cbv beta;
    rewrite bind_Ok; intros (pz & H1 & H2); exists pz; split; congruence.
Qed.

Lemma fold_insere (cs : list Noeud) (st : state) :
  fold_left insere cs st =
  {| queue := rev (acceptes (rs st) cs) ++ queue st;
     rs := rs st ∪ list_to_set (etat <$> acceptes (rs st) cs) |}.
Proof.
  revert st; induction cs as [|c cs IH]; intros [q s]; simpl.
  - f_equal. set_solver.
  - rewrite IH. unfold insere. simpl. destruct (decide (etat c ∉ s)); simpl; [|done].
    f_equal; [by rewrite <- app_assoc | set_solver].
Qed.

Lemma acceptes_sublist (s : gset string) (cs : list Noeud) : acceptes s cs `sublist_of` cs.
Proof.
  revert s; induction cs as [|c cs IH]; intros s; simpl; [done|].
  destruct (decide _); [by apply sublist_skip | by apply sublist_cons].
Qed.

Lemma acceptes_frais (s : gset string) (cs : list Noeud) :
  Forall (fun c => etat c ∉ s) (acceptes s cs) /\ NoDup (etat <$> acceptes s cs).
Proof.
  revert s; induction cs as [|c cs IH]; intros s; simpl; [split; constructor|].
  destruct (decide _) as [Hc|Hc]; [|apply IH].
  destruct (IH (s ∪ {[etat c]})) as [IH1 IH2]. split.
  - constructor; [done|]. eapply Forall_impl; [exact IH1|]. set_solver.
  - rewrite fmap_cons. constructor; [|done].
    intros (c' & Heq & Hin)%list_elem_of_fmap.
    rewrite Forall_forall in IH1. apply (IH1 c' Hin). set_solver.
Qed.

(** After the expansion every child's key is in [rs]. *)
Lemma acceptes_couvre (s : gset string) (cs : list Noeud) :
  Forall (fun c => etat c ∈ s ∪ list_to_set (etat <$> acceptes s cs)) cs.
Proof.
  revert s; induction cs as [|c cs IH]; intros s; cbn [acceptes]; [constructor|].
  destruct (decide _) as [Hc|Hc].
  - rewrite fmap_cons, list_to_set_cons.
    constructor; [cbv beta; clear; set_solver|]. eapply Forall_impl; [apply IH|].
    intros x Hx. cbv beta in *. by rewrite (assoc_L (∪)).
  - constructor; [cbv beta; apply dec_stable in Hc; clear -Hc; set_solver|]. apply IH.
Qed.

(** What a full iteration does: sort, pop the head, expand it. *)
Lemma iteration_inl (st st' : state) :
  iteration st = Ok (inl st') <->
  exists deco noeud q' acts cs,
    queue st <> [] /\
    mapM (decore f) (queue st) = Ok deco /\
    snd <$> sort_by_key deco = noeud :: q' /\
    Noeud_est_resolu noeud = false /\
    actions (puzzle noeud) = Ok acts /\
    enfants noeud acts = Ok cs /\
    st' = fold_left insere cs {| queue := q'; rs := rs st |}.
Proof.
  unfold iteration. destruct (queue st) as [|n0 q0] eqn:Hq.
  { split; [discriminate | by intros (?&?&?&?&?&?&_)]. }
  assert (queue st <> []) as Hne by (by rewrite Hq).
  rewrite <- Hq. clear n0 q0 Hq.
  split.
  - intros (q & (deco & Hd & ->)%sorted_Ok & H)%bind_Ok.
    destruct (snd <$> sort_by_key deco) as [|noeud q'] eqn:Hs; [discriminate|].
    destruct (Noeud_est_resolu noeud) eqn:Hr; [discriminate|].
    apply bind_Ok in H as (acts & Hacts & H).
    rewrite for_each_visiter in H.
    apply bind_Ok in H as (st1 & (cs & Hcs & [= <-])%bind_Ok & [= <-]).
    exists deco, noeud, q', acts, cs. repeat split; done.
  - intros (deco & noeud & q' & acts & cs & _ & Hd & Hs & Hr & Hacts & Hcs & ->).
    assert (sorted (queue st) f = Ok (noeud :: q')) as ->.
    { apply sorted_Ok. exists deco. by rewrite Hs. }
    cbn [mbind result_bind]. rewrite Hr. unfold Noeud_actions. rewrite Hacts.
    cbn [mbind result_bind]. rewrite for_each_visiter, Hcs. done.
Qed.

(** How the loop returns a path. *)
Lemma iteration_chemin (st : state) (path : list Noeud) :
  iteration st = Ok (inr (Some path)) ->
  exists noeud, noeud ∈ queue st /\ Noeud_est_resolu noeud = true /\ path = chemin noeud.
Proof.
  unfold iteration. destruct (queue st) as [|n0 q0] eqn:Hq; [discriminate|].
  rewrite <- Hq. clear n0 q0 Hq.
  intros (q & Hsort & H)%bind_Ok.
  destruct q as [|noeud q']; [discriminate|].
  destruct (Noeud_est_resolu noeud) eqn:Hr.
  - injection H as <-. exists noeud. split; [|done].
    apply sorted_perm in Hsort. rewrite <- Hsort. left.
  - apply bind_Ok in H as (? & _ & H). apply bind_Ok in H as (? & _ & [=]).
Qed.

(** The loop returns [None] only when the queue is empty. *)
Lemma iteration_None (st : state) :
  iteration st = Ok (inr None) -> queue st = [].
Proof.
  unfold iteration. destruct (queue st) as [|n0 q0] eqn:Hq; [done|].
  rewrite <- Hq. clear n0 q0 Hq.
  intros (q & Hsort & H)%bind_Ok.
  destruct q as [|noeud q']; [discriminate|].
  destruct (Noeud_est_resolu noeud) eqn:Hr; [discriminate|].
  apply bind_Ok in H as (? & _ & H). apply bind_Ok in H as (? & _ & [=]).
Qed.
(** ** Runs of the loop *)

Lemma apres_inv (I : state -> Prop) (k : nat) (st st' : state) :
  (forall s s', I s -> iteration s = Ok (inl s') -> I s') ->
  I st -> apres k st = Some st' -> I st'.
Proof.
  intros Hpas. revert st. induction k as [|k IH]; intros st Hst; simpl.
  - by intros [= <-].
  - destruct (iteration st) as [[s1|v]|e] eqn:Hit; try discriminate.
    apply IH. by apply (Hpas st).
Qed.

Lemma boucle_apres (fuel : nat) (st : state) (r : result (option (list Noeud))) :
  boucle fuel st = Some r <->
  exists k s, (k < fuel)%nat /\ apres k st = Some s /\ fin s r.
Proof.
  split.
  - revert st. induction fuel as [|fuel IH]; intros st; simpl; [discriminate|].
    destruct (iteration st) as [[s1|v]|e] eqn:Hit.
    + intros (k & s & Hk & Hs & Hfin)%IH. exists (S k), s. simpl. rewrite Hit.
      split; [lia | done].
    + intros [= <-]. exists 0%nat, st. split; [lia | done].
    + intros [= <-]. exists 0%nat, st. split; [lia | done].
  - intros (k & s & Hk & Hs & Hfin). revert fuel st Hk Hs.
    induction k as [|k IH]; intros [|fuel] st Hk; try lia; simpl.
    + intros [= ->]. unfold fin in Hfin. destruct r; by rewrite Hfin.
    + destruct (iteration st) as [[s1|v]|e]; try discriminate.
      apply IH. lia.
Qed.

(** More fuel does not change a result. *)
Lemma boucle_mono (fuel fuel' : nat) (st : state) (r : result (option (list Noeud))) :
  (fuel <= fuel')%nat -> boucle fuel st = Some r -> boucle fuel' st = Some r.
Proof.
  intros Hle (k & s & Hk & H)%boucle_apres. apply boucle_apres.
  exists k, s. split; [lia | done].
Qed.

(** ** Paths *)

Lemma ancetres_eq (n : Noeud) :
  ancetres n = n :: match parent n with
                    | Some p => ancetres p
                    | None => []
                    end.
Proof. by destruct n. Qed.

Lemma chemin_enfant (pz : Puzzle) (n : Noeud) (a : option string) :
  chemin (Noeud_init pz (Some n) a) = chemin n ++ [Noeud_init pz (Some n) a].
Proof. unfold chemin. by rewrite ancetres_eq. Qed.

Lemma chemin_dernier (n : Noeud) : last (chemin n) = Some n.
Proof. unfold chemin. rewrite ancetres_eq. simpl. apply last_snoc. Qed.

Lemma liens_app (prec n c : Noeud) (l : list Noeud) :
  liens prec l -> last (prec :: l) = Some n ->
  parent c = Some n -> g c = g n + 1 -> liens prec (l ++ [c]).
Proof.
  revert prec. induction l as [|x l IH]; intros prec Hl Hlast Hp Hg.
  - injection Hlast as ->. by repeat split.
  - destruct Hl as (H1 & H2 & H3). split; [done|]. split; [done|].
    apply IH; try done.
Qed.

Lemma chemin_ok_enfant (pz : Puzzle) (n : Noeud) (a : option string) :
  chemin_ok (chemin n) -> chemin_ok (chemin (Noeud_init pz (Some n) a)).
Proof.
  rewrite chemin_enfant. pose proof (chemin_dernier n) as Hlast.
  destruct (chemin n) as [|racine l]; [done|].
  intros (H1 & H2 & H3). split; [done|]. split; [done|].
  by apply (liens_app racine n).
Qed.

Lemma acceptes_elem_of (s : gset string) (cs : list Noeud) (c : Noeud) :
  c ∈ acceptes s cs -> c ∈ cs.
Proof.
  revert s; induction cs as [|c' cs IH]; intros s; cbn [acceptes]; [done|].
  destruct (decide _).
  - intros [->|Hin]%elem_of_cons; [left | right; by apply (IH _ Hin)].
  - intros Hin. right. by apply (IH _ Hin).
Qed.

Lemma acceptes_Forall (P : Noeud -> Prop) (s : gset string) (cs : list Noeud) :
  Forall P cs -> Forall P (acceptes s cs).
Proof.
  rewrite !Forall_forall. intros H c Hc. by apply H, (acceptes_elem_of s).
Qed.

(** Every queued node heads a well-formed path. *)
Lemma iteration_chemin_ok (st st' : state) :
  Forall (fun n => chemin_ok (chemin n)) (queue st) ->
  iteration st = Ok (inl st') ->
  Forall (fun n => chemin_ok (chemin n)) (queue st').
Proof.
  intros Hq (deco & noeud & q' & acts & cs & _ & Hd & Hs & _ & _ & Hcs & ->)%iteration_inl.
  apply mapM_decore in Hd as [Hd _].
  assert (noeud :: q' ≡ₚ queue st) as Hperm
    by (by rewrite <- Hs, <- Hd, sort_by_key_perm).
  rewrite <- Hperm in Hq. apply Forall_cons in Hq as [Hn Hq'].
  rewrite fold_insere. cbn [queue rs]. apply Forall_app. split; [|done].
  apply Forall_rev, acceptes_Forall.
  apply enfants_Forall2 in Hcs. clear -Hcs Hn.
  induction Hcs as [|ma c acts cs (pz & _ & ->) _ IH]; constructor; [|done].
  by apply chemin_ok_enfant.
Qed.

(** C1: every path that [resoudre] returns starts at a root ([g = 0], no
    parent), each later node has the node before it as parent and a cost one
    higher, and the board of the last node satisfies [est_resolu]. *)
Theorem resoudre_chemin (self : Solution) (fuel : nat) (path : list Noeud) :
  resoudre self fuel = Some (Ok (Some path)) ->
  exists racine reste dernier,
    path = racine :: reste /\
    g racine = 0 /\ parent racine = None /\
    liens racine reste /\
    last path = Some dernier /\ est_resolu (puzzle dernier) = true.
Proof.
  intros (k & s & _ & Hs & Hfin)%boucle_apres.
  apply iteration_chemin in Hfin as (noeud & Hin & Hr & ->).
  assert (Forall (fun n => chemin_ok (chemin n)) (queue s)) as Hok.
  { apply (apres_inv (fun st => Forall (fun n => chemin_ok (chemin n)) (queue st))
             k (etat_initial self)); [apply iteration_chemin_ok | | exact Hs].
    by repeat constructor. }
  rewrite Forall_forall in Hok. specialize (Hok noeud Hin).
  pose proof (chemin_dernier noeud) as Hlast.
  destruct (chemin noeud) as [|racine reste]; [done|].
  destruct Hok as (H1 & H2 & H3).
  by exists racine, reste, noeud.
Qed.

Lemma resoudre_chemin_witness :
  exists path,
    resoudre (mkSolution {| largeur := 3; table := grille 1 2 3 4 0 6 7 5 8 |}) 5
    = Some (Ok (Some path)) /\
    exists racine reste dernier,
      path = racine :: reste /\
      g racine = 0 /\ parent racine = None /\
      liens racine reste /\
      last path = Some dernier /\ est_resolu (puzzle dernier) = true.
Proof.
  eexists. split.
  - vm_compute. reflexivity.
  - apply (resoudre_chemin
             (mkSolution {| largeur := 3; table := grille 1 2 3 4 0 6 7 5 8 |}) 5).
    vm_compute. reflexivity.
Defined.
(** ** Termination on valid 3 x 3 boards *)

Lemma Puzzle_init_valide3 (t : list (list Z)) (p : Puzzle) :
  valid_board 3 t -> Puzzle_init t = Ok p -> valide3 p /\ table p = t.
Proof.
  intros Hv. rewrite Puzzle_init_spec. pose proof Hv as (Hlen & Hrows & _).
  destruct t as [|row0 t']; [discriminate|]. intros [= <-].
  apply Forall_cons in Hrows as [H0 _]. split; [|done].
  split; [|done]. simpl. by rewrite H0.
Qed.

Lemma cle_valide3 (p : Puzzle) : valide3 p -> Puzzle_str p ∈ cles.
Proof.
  intros [_ (_ & _ & Hperm)]. unfold cles. apply elem_of_list_to_set.
  apply list_elem_of_fmap. exists (concat (table p)). split; [reflexivity|].
  by apply permutations_Permutation.
Qed.

Opaque cles.

Lemma f_valide3 (n : Noeud) : valide3 (puzzle n) -> exists k, f n = Ok k.
Proof.
  intros (k & Hk & _)%manhattan_valide3. exists (k + g n).
  unfold f, h. by rewrite Hk.
Qed.

Lemma Forall2_elem_of_r {A B : Type} (R : A -> B -> Prop) (l : list A) (k : list B) (y : B) :
  Forall2 R l k -> y ∈ k -> exists x, x ∈ l /\ R x y.
Proof.
  induction 1 as [|x y' l k Hxy _ IH]; [by intros ?%not_elem_of_nil|].
  intros [->|Hin]%elem_of_cons.
  - exists x. split; [left | done].
  - destruct (IH Hin) as (x' & Hx' & HR). exists x'. split; [by right | done].
Qed.

Lemma Forall2_elem_of_l {A B : Type} (R : A -> B -> Prop) (l : list A) (k : list B) (x : A) :
  Forall2 R l k -> x ∈ l -> exists y, y ∈ k /\ R x y.
Proof.
  induction 1 as [|x' y l k Hxy _ IH]; [by intros ?%not_elem_of_nil|].
  intros [->|Hin]%elem_of_cons.
  - exists y. split; [left | done].
  - destruct (IH Hin) as (y' & Hy' & HR). exists y'. split; [by right | done].
Qed.

(** The children of a node that holds a valid board: the calls succeed,
    and each child holds a valid board one legal move away. *)
Lemma enfants_valide3 (n : Noeud) :
  valide3 (puzzle n) ->
  exists acts cs,
    actions (puzzle n) = Ok acts /\ enfants n acts = Ok cs /\
    Forall (fun c => valide3 (puzzle c) /\ coup (puzzle n) (puzzle c) /\
                     coup (puzzle c) (puzzle n)) cs /\
    (forall q, coup (puzzle n) q -> exists c, c ∈ cs /\ puzzle c = q).
Proof.
  intros Hn. destruct (actions_valide3 _ Hn) as (acts & Hacts & _ & Hok).
  assert (exists cs, Forall2 (fun ma c => exists pz, call ma.1 = Ok pz /\
            c = Noeud_init pz (Some n) (Some ma.2)) acts cs) as [cs Hcs].
  { clear Hacts. induction Hok as [|ma acts Hma _ [cs IH]]; [by exists []|].
    destruct Hma as (_ & _ & _ & _ & _ & q & Hq & _).
    exists (Noeud_init q (Some n) (Some ma.2) :: cs). constructor; [|done]. by exists q. }
  exists acts, cs. split; [done|]. split; [by apply enfants_Forall2|].
  rewrite Forall_forall in Hok. split.
  - apply Forall_forall. intros c Hc.
    destruct (Forall2_elem_of_r _ _ _ _ Hcs Hc) as ([m a] & Hin & pz & Hpz & ->).
    destruct (Hok _ Hin) as (_ & _ & _ & _ & _ & q & Hq & Hvq & _ & _ & _ & _ & Hret).
    simpl in *. assert (q = pz) as -> by congruence.
    split; [done|]. split; [|done]. by exists acts, m, a.
  - intros q (ms & m & a & Hms & Hin & Hcall).
    assert (ms = acts) as -> by congruence.
    destruct (Forall2_elem_of_l _ _ _ _ Hcs Hin) as (c & Hc & pz & Hpz & ->).
    simpl in *. exists (Noeud_init pz (Some n) (Some a)). split; [done|].
    simpl. congruence.
Qed.

Lemma coup_valide3 (p q : Puzzle) : valide3 p -> coup p q -> valide3 q /\ coup q p.
Proof.
  intros Hp (ms & m & a & Hms & Hin & Hcall).
  destruct (actions_valide3 _ Hp) as (acts & Hacts & _ & Hok).
  assert (ms = acts) as -> by congruence.
  rewrite Forall_forall in Hok.
  destruct (Hok _ Hin) as (_ & _ & _ & _ & _ & q' & Hq & Hvq & _ & _ & _ & _ & Hret).
  simpl in *. assert (q' = q) as -> by congruence. done.
Qed.

Lemma size_cles_acceptes (s : gset string) (cs : list Noeud) :
  Forall (fun c => valide3 (puzzle c)) cs ->
  (size (cles ∖ (s ∪ list_to_set (etat <$> acceptes s cs))) + length (acceptes s cs)
   = size (cles ∖ s))%nat.
Proof.
  intros Hcs. destruct (acceptes_frais s cs) as [Hfrais Hnd].
  apply (acceptes_Forall _ s) in Hcs.
  set (K := list_to_set (etat <$> acceptes s cs) : gset string).
  assert (size K = length (acceptes s cs)) as HK
    by (unfold K; by rewrite size_list_to_set, length_fmap).
  assert (K ⊆ cles ∖ s) as Hsub.
  { intros x (c & -> & Hc)%elem_of_list_to_set%list_elem_of_fmap.
    rewrite Forall_forall in Hcs, Hfrais. apply elem_of_difference. split.
    - by apply cle_valide3, Hcs.
    - by apply Hfrais. }
  rewrite <- difference_difference_l_L.
  rewrite size_difference by done. apply subseteq_size in Hsub. lia.
Qed.

(** On valid boards an iteration never raises. *)
Lemma iteration_progres (st : state) :
  Forall (fun n => valide3 (puzzle n)) (queue st) -> exists r, iteration st = Ok r.
Proof.
  intros Hv. destruct (queue st) as [|n0 q0] eqn:Hq.
  { exists (inr None). unfold iteration. by rewrite Hq. }
  destruct (mapM_decore_Ok f (queue st)) as [deco Hdeco].
  { rewrite Hq. eapply Forall_impl; [exact Hv|]. apply f_valide3. }
  pose proof (mapM_decore _ _ _ Hdeco) as [Hsnd _].
  assert (snd <$> sort_by_key deco ≡ₚ queue st) as Hperm
    by (by rewrite <- Hsnd, sort_by_key_perm).
  destruct (snd <$> sort_by_key deco) as [|noeud q'] eqn:Hs.
  { rewrite Hq in Hperm. by apply Permutation_nil_cons in Hperm. }
  assert (valide3 (puzzle noeud)) as Hn.
  { rewrite <- Hq, <- Hperm in Hv. by apply Forall_cons in Hv as [? _]. }
  destruct (Noeud_est_resolu noeud) eqn:Hr.
  - exists (inr (Some (chemin noeud))). unfold iteration. rewrite Hq, <- Hq.
    assert (sorted (queue st) f = Ok (noeud :: q')) as ->
      by (apply sorted_Ok; exists deco; by rewrite Hs).
    cbn [mbind result_bind]. by rewrite Hr.
  - destruct (enfants_valide3 _ Hn) as (acts & cs & Hacts & Hcs & _).
    eexists (inl _). apply iteration_inl.
    exists deco, noeud, q', acts, cs. rewrite Hq at 1. by repeat split.
Qed.

(** On valid boards an iteration keeps the boards valid and decreases
    [mesure]. *)
Lemma iteration_mesure (st st' : state) :
  Forall (fun n => valide3 (puzzle n)) (queue st) ->
  iteration st = Ok (inl st') ->
  Forall (fun n => valide3 (puzzle n)) (queue st') /\ (mesure st' < mesure st)%nat.
Proof.
  intros Hv (deco & noeud & q' & acts & cs & _ & Hd & Hs & _ & Hacts & Hcs & ->)%iteration_inl.
  apply mapM_decore in Hd as [Hd _].
  assert (noeud :: q' ≡ₚ queue st) as Hperm
    by (by rewrite <- Hs, <- Hd, sort_by_key_perm).
  rewrite <- Hperm in Hv. apply Forall_cons in Hv as [Hn Hq'].
  destruct (enfants_valide3 _ Hn) as (acts' & cs' & Hacts' & Hcs' & Hval & _).
  assert (acts' = acts) as -> by congruence. assert (cs' = cs) as -> by congruence.
  assert (Forall (fun c => valide3 (puzzle c)) cs) as Hvcs
    by (eapply Forall_impl; [exact Hval|]; by intros ? [? _]).
  rewrite fold_insere. cbn [queue rs]. split.
  - apply Forall_app. split; [|done]. by apply Forall_rev, acceptes_Forall.
  - unfold mesure. cbn [queue rs].
    pose proof (size_cles_acceptes (rs st) cs Hvcs) as Hsize.
    apply Permutation_length in Hperm. cbn [length] in Hperm.
    rewrite length_app, length_rev. lia.
Qed.

Lemma boucle_termine (st : state) :
  Forall (fun n => valide3 (puzzle n)) (queue st) ->
  exists fuel r, boucle fuel st = Some (Ok r).
Proof.
  remember (mesure st) as n eqn:Hn. revert st Hn.
  induction (lt_wf n) as [n _ IH]. intros st -> Hv.
  destruct (iteration_progres st Hv) as [[st'|r] Hit].
  - destruct (iteration_mesure st st' Hv Hit) as [Hv' Hlt].
    destruct (IH _ Hlt st' eq_refl Hv') as (fuel & r & Hr).
    exists (S fuel), r. simpl. by rewrite Hit.
  - exists 1%nat, r. simpl. by rewrite Hit.
Qed.
(** The result of [resoudre], once reached, is the same for every fuel. *)
Lemma resoudre_deterministe (self : Solution) (fuel fuel' : nat)
  (r r' : result (option (list Noeud))) :
  resoudre self fuel = Some r -> resoudre self fuel' = Some r' -> r = r'.
Proof.
  unfold resoudre. intros H H'.
  apply (boucle_mono _ (max fuel fuel')) in H; [|lia].
  apply (boucle_mono _ (max fuel fuel')) in H'; [|lia]. congruence.
Qed.

Lemma iteration_rs (st st' : state) :
  iteration st = Ok (inl st') -> rs st ⊆ rs st'.
Proof.
  intros (deco & noeud & q' & acts & cs & _ & _ & _ & _ & _ & _ & ->)%iteration_inl.
  rewrite fold_insere. cbn [rs]. apply union_subseteq_l.
Qed.

(** C2: on every valid 3 x 3 board [resoudre] terminates without raising.
    The visited set only grows along the run; the result is a path that ends
    at a solved board, or the absent result, reached with an empty queue;
    and no other fuel gives another outcome. *)
Theorem resoudre_termine (t : list (list Z)) (p : Puzzle) :
  valid_board 3 t -> Puzzle_init t = Ok p ->
  exists fuel r,
    resoudre (mkSolution p) fuel = Some (Ok r) /\
    (forall fuel' r', resoudre (mkSolution p) fuel' = Some r' -> r' = Ok r) /\
    (forall k st st', apres k (etat_initial (mkSolution p)) = Some st ->
       iteration st = Ok (inl st') -> rs st ⊆ rs st' /\ (mesure st' < mesure st)%nat) /\
    match r with
    | Some path =>
        exists dernier, last path = Some dernier /\ est_resolu (puzzle dernier) = true
    | None =>
        exists k st, apres k (etat_initial (mkSolution p)) = Some st /\ queue st = []
    end.
Proof.
  intros Hv Hp. apply (Puzzle_init_valide3 _ _ Hv) in Hp as [Hp _].
  set (self := mkSolution p).
  assert (Forall (fun n => valide3 (puzzle n)) (queue (etat_initial self))) as Hinit
    by (apply Forall_cons_2; [exact Hp | apply Forall_nil_2]).
  destruct (boucle_termine _ Hinit) as (fuel & r & Hr).
  exists fuel, r. split; [exact Hr|]. split; [|split].
  - intros fuel' r' Hr'. symmetry. by apply (resoudre_deterministe self fuel fuel').
  - intros k st st' Hst Hit. split; [by apply iteration_rs|].
    apply (iteration_mesure st st'); [|done].
    apply (apres_inv (fun s => Forall (fun n => valide3 (puzzle n)) (queue s))
             k (etat_initial self)); [|done..].
    intros s s' Hs Hss'. by apply (iteration_mesure s s').
  - apply boucle_apres in Hr as (k & s & _ & Hs & Hfin). destruct r as [path|].
    + apply iteration_chemin in Hfin as (noeud & _ & Hres & ->).
      exists noeud. split; [apply chemin_dernier | exact Hres].
    + exists k, s. split; [done|]. by apply iteration_None.
Qed.

Lemma resoudre_termine_witness :
  valid_board 3 (grille 1 2 3 4 0 6 7 5 8) /\
  Puzzle_init (grille 1 2 3 4 0 6 7 5 8) =
    Ok {| largeur := 3; table := grille 1 2 3 4 0 6 7 5 8 |} /\
  exists fuel r,
    resoudre (mkSolution {| largeur := 3; table := grille 1 2 3 4 0 6 7 5 8 |}) fuel
      = Some (Ok r).
Proof.
  assert (valid_board 3 (grille 1 2 3 4 0 6 7 5 8)) as Hv.
  { split; [reflexivity|]. split; [by repeat constructor|].
    change ([1; 2; 3; 4] ++ 0 :: [6; 7; 5; 8] ≡ₚ 0 :: [1; 2; 3; 4] ++ [5] ++ [6; 7] ++ [8]).
    rewrite <- Permutation_middle. do 5 apply Permutation_skip.
    symmetry. apply (Permutation_middle [6; 7] [8] 5). }
  split; [exact Hv|]. split; [reflexivity|].
  destruct (resoudre_termine (grille 1 2 3 4 0 6 7 5 8)
              {| largeur := 3; table := grille 1 2 3 4 0 6 7 5 8 |} Hv eq_refl)
    as (fuel & r & Hr & _).
  by exists fuel, r.
Defined.
(** ** Completeness on the boards reachable from the solved board *)

Lemma accessible_sym (p q : Puzzle) :
  valide3 p -> accessible p q -> valide3 q /\ accessible q p.
Proof.
  intros Hp Hacc. induction Hacc as [p|p q r Hpq _ IH]; [by split|].
  destruct (coup_valide3 p q Hp Hpq) as [Hq Hqp].
  destruct (IH Hq) as [Hr Hrq]. split; [done|].
  eapply rtc_r; [exact Hrq | exact Hqp].
Qed.

Lemma choice_elem_of {A : Type} (l : list A) (k : nat) (x : A) :
  choice l k = Ok x -> x ∈ l.
Proof.
  unfold choice. destruct l as [|y l]; [discriminate|].
  destruct (_ !! _) as [z|] eqn:Hz; [|discriminate].
  intros [= <-]. by eapply list_elem_of_lookup_2.
Qed.

(** [shuffle] only makes legal moves. *)
Lemma shuffle_pas_accessible (p q : Puzzle) (tirages : list nat) :
  shuffle_pas p tirages = Ok q -> accessible p q.
Proof.
  unfold shuffle_pas. revert p. induction tirages as [|k tirages IH]; intros p; simpl.
  - intros [= <-]. apply rtc_refl.
  - intros (p' & Hp' & H)%bind_Ok.
    apply bind_Ok in Hp' as (acts & Hacts & Hp').
    apply bind_Ok in Hp' as ([m a] & Hma%choice_elem_of & Hcall).
    eapply rtc_l; [|by apply IH]. by exists acts, m, a.
Qed.

Lemma elem_of_rev {A : Type} (x : A) (l : list A) : x ∈ rev l <-> x ∈ l.
Proof. rewrite !list_elem_of_In. symmetry. apply in_rev. Qed.

Lemma clos_initial (p : Puzzle) : valide3 p -> clos (etat_initial (mkSolution p)).
Proof.
  intros Hp q Hq Hin. left. exists (Noeud_init p None None). split; [left|].
  simpl in Hin. apply elem_of_union in Hin as [Hin|Hin]; [by apply not_elem_of_empty in Hin|].
  apply elem_of_singleton in Hin. symmetry. by apply Puzzle_str_inj.
Qed.

Lemma iteration_clos (st st' : state) :
  Forall (fun n => valide3 (puzzle n)) (queue st) -> clos st ->
  iteration st = Ok (inl st') -> clos st'.
Proof.
  intros Hv Hclos (deco & noeud & q' & acts & cs & _ & Hd & Hs & Hres & Hacts & Hcs & ->)%iteration_inl.
  apply mapM_decore in Hd as [Hd _].
  assert (noeud :: q' ≡ₚ queue st) as Hperm
    by (by rewrite <- Hs, <- Hd, sort_by_key_perm).
  rewrite <- Hperm in Hv. apply Forall_cons in Hv as [Hn Hq'].
  destruct (enfants_valide3 _ Hn) as (acts' & cs' & Hacts' & Hcs' & Hval & Hsucc).
  assert (acts' = acts) as -> by congruence. assert (cs' = cs) as -> by congruence.
  pose proof (acceptes_couvre (rs st) cs) as Hcouvre.
  rewrite Forall_forall in Hval, Hcouvre.
  rewrite fold_insere. cbn [queue rs]. intros q Hq Hin. cbn [queue rs] in *.
  apply elem_of_union in Hin as [Hin|Hin].
  - destruct (Hclos q Hq Hin) as [(n & Hnq & <-)|[Hnr Hfils]].
    + rewrite <- Hperm in Hnq. apply elem_of_cons in Hnq as [->|Hnq].
      * right. split; [exact Hres|]. intros r Hr.
        destruct (Hsucc r Hr) as (c & Hc & <-). by apply Hcouvre.
      * left. exists n. split; [|done]. apply elem_of_app. by right.
    + right. split; [done|]. intros r Hr. apply elem_of_union_l. by apply Hfils.
  - apply elem_of_list_to_set, list_elem_of_fmap in Hin as (c & Hkey & Hc).
    left. exists c. split; [apply elem_of_app; left; by apply elem_of_rev|].
    symmetry. apply Puzzle_str_inj; [done| |done].
    by apply Hval, (acceptes_elem_of (rs st)).
Qed.

(** When the queue is empty, [rs] holds the key of every board reachable
    from the initial one, and none of them is solved. *)
Lemma clos_vide (st : state) (p q : Puzzle) :
  clos st -> queue st = [] -> valide3 p -> Puzzle_str p ∈ rs st ->
  accessible p q -> est_resolu q = false.
Proof.
  intros Hclos Hvide Hp Hin Hacc.
  assert (forall r, valide3 r -> Puzzle_str r ∈ rs st ->
            est_resolu r = false /\ forall r', coup r r' -> Puzzle_str r' ∈ rs st) as Hferme.
  { intros r Hr Hrin. destruct (Hclos r Hr Hrin) as [(n & Hn & _)|H]; [|done].
    rewrite Hvide in Hn. by apply not_elem_of_nil in Hn. }
  induction Hacc as [p|p r q Hpr _ IH]; [by apply Hferme|].
  apply IH; [by apply (coup_valide3 p r) | by apply (Hferme p)].
Qed.

Lemma trouve_chemin_accessible (p : Puzzle) : accessible but p -> trouve_chemin p.
Proof.
  intros Hacc. destruct (accessible_sym but p but_valide3 Hacc) as [Hp Hback].
  set (self := mkSolution p).
  set (I := fun s => Forall (fun n => valide3 (puzzle n)) (queue s) /\ clos s /\
                     Puzzle_str p ∈ rs s).
  assert (I (etat_initial self)) as Hinit.
  { split; [apply Forall_cons_2; [exact Hp | apply Forall_nil_2]|].
    split; [by apply clos_initial|]. simpl. apply elem_of_union_r. by apply elem_of_singleton. }
  assert (forall s s', I s -> iteration s = Ok (inl s') -> I s') as Hpas.
  { intros s s' (Hv & Hc & Hin) Hit. split; [by apply (iteration_mesure s s')|].
    split; [by apply (iteration_clos s s')|]. by apply (iteration_rs s s'). }
  assert (forall fuel r, resoudre self fuel = Some r -> exists path, r = Ok (Some path))
    as Hres.
  { intros fuel r (k & s & _ & Hs & Hfin)%boucle_apres.
    apply (apres_inv I k _ _ Hpas Hinit) in Hs as (Hv & Hc & Hin).
    destruct (iteration_progres s Hv) as [x Hx]. destruct r as [[path|]|e]; simpl in Hfin.
    - by exists path.
    - apply iteration_None in Hfin.
      pose proof (clos_vide s p but Hc Hfin Hp Hin Hback) as Hbut. discriminate Hbut.
    - congruence. }
  split; [|exact Hres].
  destruct (boucle_termine (etat_initial self)) as (fuel & r & Hr); [apply Hinit|].
  destruct (Hres fuel _ Hr) as (path & [= ->]). by exists fuel, path.
Qed.

(** C3: the property holds of 3 x 3 boards only.  The solved 2 x 2 board is
    a valid board that satisfies [est_resolu]; it is reachable from the
    solved board by no move and it is what the loop of [shuffle] returns
    after no draw.  On it [resoudre] returns no path: it raises [IndexError]
    in its first iteration, when the queue is sorted by [f], because
    [manhattan] reads the cells of a 3 x 3 grid whatever [largeur] is.  The
    same happens on the board that the 50 draws of [shuffle] lead to. *)
Theorem resoudre_but2 :
  Puzzle_init [[1; 2]; [3; 0]] = Ok but2 /\
  valid_board 2 (table but2) /\
  est_resolu but2 = true /\
  accessible but2 but2 /\
  shuffle_pas but2 [] = Ok but2 /\
  manhattan but2 = Raise IndexError /\
  (forall fuel, resoudre (mkSolution but2) (S fuel) = Some (Raise IndexError)) /\
  (forall fuel path, resoudre (mkSolution but2) fuel <> Some (Ok (Some path))) /\
  exists q, shuffle but2 (fun _ => 0%nat) = Ok q /\ accessible but2 q /\
            valid_board 2 (table q) /\
            forall fuel, resoudre (mkSolution q) (S fuel) = Some (Raise IndexError).
Proof.
  assert (forall fuel, resoudre (mkSolution but2) (S fuel) = Some (Raise IndexError))
    as Hleve by (intros fuel; vm_compute; reflexivity).
  split; [reflexivity|]. split.
  { split; [reflexivity|]. split; [by repeat constructor|].
    apply (bool_decide_unpack _). vm_compute. exact I. }
  split; [reflexivity|]. split; [apply rtc_refl|]. split; [reflexivity|].
  split; [reflexivity|]. split; [exact Hleve|]. split.
  { intros [|fuel] path; [discriminate|]. by rewrite Hleve. }
  eassert (shuffle but2 (fun _ => 0%nat) = Ok _) as Hq by (vm_compute; reflexivity).
  eexists. split; [exact Hq|]. split; [by apply (shuffle_pas_accessible _ _ _ Hq)|].
  split.
  { split; [reflexivity|]. split; [by repeat constructor|].
    apply (bool_decide_unpack _). vm_compute. exact I. }
  intros fuel. vm_compute. reflexivity.
Qed.
(** ** The moves of a board *)

Lemma dans_grille_product (x : pos) :
  dans_grille x -> x ∈ product (range 3) (range 3).
Proof.
  destruct x as [i j]. intros [Hi Hj]. simpl in *.
  assert (i = 0 \/ i = 1 \/ i = 2) as Hi' by lia.
  assert (j = 0 \/ j = 1 \/ j = 2) as Hj' by lia.
  let l := eval vm_compute in (product (range 3) (range 3)) in
  change (product (range 3) (range 3)) with l.
  destruct Hi' as [-> | [-> | ->]]; destruct Hj' as [-> | [-> | ->]];
    repeat first [apply list_elem_of_here | apply list_elem_of_further].
Qed.

(** C7: a valid 3 x 3 board has between 2 and 4 moves.  Each one swaps, in
    a new board, the blank with an adjacent cell of the grid and leaves the
    other cells and the original board as they are; the same swap applied to
    the new board gives the original board back. *)
Theorem actions_echanges (p : Puzzle) :
  valide3 p ->
  exists ms,
    actions p = Ok ms /\ (2 <= length ms <= 4)%nat /\
    forall m a, (m, a) ∈ ms ->
      move_self m = p /\
      dans_grille (move_p1 m) /\ dans_grille (move_p2 m) /\
      voisines (move_p1 m) (move_p2 m) /\
      cell p (move_p2 m) = Ok 0 /\
      exists q,
        call m = Ok q /\ largeur q = largeur p /\
        cell q (move_p1 m) = Ok 0 /\
        cell q (move_p2 m) = cell p (move_p1 m) /\
        (forall x, dans_grille x -> x <> move_p1 m -> x <> move_p2 m ->
           cell q x = cell p x) /\
        Puzzle_move q (move_p1 m) (move_p2 m) = Ok p.
Proof.
  intros Hp. destruct (actions_valide3 p Hp) as (ms & Hms & Hlen & Hok).
  exists ms. split; [done|]. split; [done|]. intros m a Hin.
  rewrite Forall_forall in Hok.
  destruct (Hok _ Hin) as (H1 & H2 & H3 & H4 & H5 & q & Hq & Hvq & H6 & H7 & H8 & H9 & _).
  simpl in *. repeat (split; [done|]). exists q. split; [done|].
  split; [destruct Hvq as [-> _], Hp as [-> _]; done|].
  repeat (split; [done|]). split; [|done].
  intros x Hx. rewrite Forall_forall in H8. by apply H8, dans_grille_product.
Qed.

Lemma actions_echanges_witness :
  valide3 but /\
  exists ms, actions but = Ok ms /\ (2 <= length ms <= 4)%nat.
Proof.
  assert (valide3 but) as Hv.
  { split; [reflexivity|]. split; [reflexivity|]. split; [by repeat constructor|].
    apply (Permutation_app_comm [1; 2; 3; 4; 5; 6; 7; 8] [0]). }
  split; [exact Hv|].
  destruct (actions_echanges but Hv) as (ms & Hms & Hlen & _).
  by exists ms.
Defined.
(** ** The returned path need not be a shortest one *)

Lemma est_suite_legale (p : Puzzle) (l : list Puzzle) :
  est_suite p l = true -> suite_legale p l.
Proof.
  revert p. induction l as [|q l IH]; intros p; simpl; [constructor|].
  intros [Hq Hl]%andb_true_iff. apply bool_decide_eq_true in Hq.
  constructor; [by apply coup_voisins | by apply IH].
Qed.

Lemma suite_legale_accessible (p q : Puzzle) (l : list Puzzle) :
  suite_legale p l -> last (p :: l) = Some q -> accessible p q.
Proof.
  induction 1 as [p|p r l Hpr _ IH]; simpl.
  - intros [= <-]. apply rtc_refl.
  - intros Hlast. eapply rtc_l; [exact Hpr|]. by apply IH.
Qed.

(** C4: a solvable valid board on which [resoudre] returns a path of 12
    moves although 10 legal moves lead from it to the solved board. *)
Theorem resoudre_non_optimal :
  exists (p : Puzzle) (fuel : nat) (path : list Noeud) (court : list Puzzle),
    valide3 p /\ accessible but p /\
    resoudre (mkSolution p) fuel = Some (Ok (Some path)) /\
    suite_legale p court /\ last court = Some but /\
    length court = 10%nat /\ length path = 13%nat /\
    (length court < length path - 1)%nat.
Proof.
  set (p := {| largeur := 3; table := grille 1 3 5 4 0 8 7 6 2 |}).
  set (court := (fun t => {| largeur := 3; table := t |}) <$>
     [grille 1 3 5 4 8 0 7 6 2; grille 1 3 5 4 8 2 7 6 0; grille 1 3 5 4 8 2 7 0 6;
      grille 1 3 5 4 0 2 7 8 6; grille 1 3 5 4 2 0 7 8 6; grille 1 3 0 4 2 5 7 8 6;
      grille 1 0 3 4 2 5 7 8 6; grille 1 2 3 4 0 5 7 8 6; grille 1 2 3 4 5 0 7 8 6;
      grille 1 2 3 4 5 6 7 8 0]).
  assert (valide3 p) as Hp.
  { apply grille_valide3. apply (bool_decide_unpack _). vm_compute. exact I. }
  assert (suite_legale p court) as Hcourt.
  { apply est_suite_legale. vm_compute. reflexivity. }
  assert (exists path, resoudre (mkSolution p) 40 = Some (Ok (Some path)) /\
                       length path = 13%nat) as (path & Hpath & Hlen).
  { eexists. split; [vm_compute; reflexivity | vm_compute; reflexivity]. }
  exists p, 40%nat, path, court. split; [done|]. split.
  { apply (accessible_sym p but Hp).
    by apply (suite_legale_accessible p but court). }
  split; [done|]. split; [done|]. split; [reflexivity|].
  split; [reflexivity|]. split; [done|].
  rewrite Hlen. simpl. lia.
Qed.
(** ** The search with its history: agreement with the program *)

Lemma gvisiter_ginsere (noeud : Noeud) (m : move) (a : string) (gs : gstate) :
  gvisiter noeud (m, a) gs =
  (pz ← call m; Ok (ginsere gs (Noeud_init pz (Some noeud) (Some a)))).
Proof. reflexivity. Qed.

Lemma for_each_gvisiter (noeud : Noeud) (acts : list (move * string)) (gs : gstate) :
  for_each acts (gvisiter noeud) gs =
  (cs ← enfants noeud acts; Ok (fold_left ginsere cs gs)).
Proof.
  revert gs; induction acts as [|[m a] acts IH]; intros gs; [done|].
  cbn [for_each]. rewrite gvisiter_ginsere. unfold enfants. cbn [mapM fst snd].
  destruct (call m) as [pz|e]; [|done]. cbn [mbind result_bind].
  rewrite IH. unfold enfants. by destruct (mapM _ acts).
Qed.

Lemma estampille_cons (h : nat) (c : Noeud) (l : list Noeud) :
  estampille h (c :: l) = (h, c) :: estampille (S h) l.
Proof.
  unfold estampille. rewrite imap_cons. f_equal; [f_equal; lia|].
  apply imap_ext. intros i x _. simpl. f_equal. lia.
Qed.

Lemma fold_ginsere (cs : list Noeud) (gs : gstate) :
  fold_left ginsere cs gs =
  {| gqueue := rev (estampille (length (ghist gs)) (acceptes (grs gs) cs)) ++ gqueue gs;
     grs := grs gs ∪ list_to_set (etat <$> acceptes (grs gs) cs);
     ghist := rev (acceptes (grs gs) cs) ++ ghist gs |}.
Proof.
  revert gs; induction cs as [|c cs IH]; intros [q s hist].
  - simpl. f_equal. clear; set_solver.
  - cbn [fold_left]. rewrite IH. cbn [acceptes]. unfold ginsere.
    cbn [grs ghist gqueue]. destruct (decide (etat c ∉ s)); [|done].
    cbn [grs ghist gqueue length]. rewrite estampille_cons, fmap_cons, list_to_set_cons.
    cbn [rev]. rewrite <- !app_assoc. f_equal. clear; set_solver.
Qed.

Lemma fold_ginsere_efface (cs : list Noeud) (gs : gstate) :
  efface (fold_left ginsere cs gs) = fold_left insere cs (efface gs).
Proof.
  revert gs; induction cs as [|c cs IH]; intros gs; [done|].
  simpl. rewrite IH. f_equal. unfold ginsere, insere, efface. simpl.
  by destruct (decide _).
Qed.

Lemma mapM_decore_snd (l : list (nat * Noeud)) :
  mapM (decore f) (snd <$> l) =
  (fmap (prod_map id snd)) <$> mapM (decore (fun e : nat * Noeud => f e.2)) l.
Proof.
  induction l as [|[s n] l IH]; [reflexivity|].
  rewrite fmap_cons. cbn [mapM]. rewrite IH. unfold decore. cbn [snd].
  destruct (f n) as [k|e]; [|reflexivity]. cbn [mbind result_bind].
  destruct (mapM _ l); reflexivity.
Qed.

Lemma sorted_snd (l : list (nat * Noeud)) :
  sorted (snd <$> l) f =
  (fun q : list (nat * Noeud) => snd <$> q) <$> sorted l (fun e => f e.2).
Proof.
  unfold sorted. fold (decore f). fold (decore (fun e : nat * Noeud => f e.2)).
  rewrite mapM_decore_snd. destruct (mapM _ l) as [deco|e]; [|done].
  cbn [fmap result_fmap mbind result_bind]. f_equal.
  rewrite sort_by_key_fmap, <- !list_fmap_compose. apply list_fmap_ext.
  by intros i [k [s n]] _.
Qed.

(** Erasing the ghost components of an iteration gives the iteration of
    the program. *)
Lemma giteration_efface (gs : gstate) :
  iteration (efface gs) =
  match giteration gs with
  | Ok (inl gs') => Ok (inl (efface gs'))
  | Ok (inr r) => Ok (inr r)
  | Raise e => Raise e
  end.
Proof.
  unfold iteration, giteration. destruct gs as [q s hist]. cbn [efface queue rs gqueue grs ghist].
  destruct q as [|e0 q0]; [done|].
  change (snd <$> e0 :: q0) with (e0.2 :: (snd <$> q0)) at 1.
  cbv iota. change (e0.2 :: (snd <$> q0)) with (snd <$> e0 :: q0).
  rewrite sorted_snd. destruct (sorted (e0 :: q0) _) as [[|[st noeud] q']|e]; try done.
  cbn [fmap result_fmap mbind result_bind]. rewrite fmap_cons. cbn [snd].
  destruct (Noeud_est_resolu noeud); [done|].
  destruct (Noeud_actions noeud) as [acts|e]; [|done]. cbn [mbind result_bind].
  rewrite for_each_visiter, for_each_gvisiter.
  destruct (enfants noeud acts) as [cs|e]; [|done]. cbn [mbind result_bind].
  by rewrite fold_ginsere_efface.
Qed.

Lemma gapres_efface (k : nat) (gs gs' : gstate) :
  gapres k gs = Some gs' -> apres k (efface gs) = Some (efface gs').
Proof.
  revert gs. induction k as [|k IH]; intros gs; simpl; [by intros [= ->]|].
  rewrite giteration_efface. destruct (giteration gs) as [[gs1|r]|e]; try discriminate.
  apply IH.
Qed.

Lemma apres_gapres (k : nat) (gs : gstate) (st : state) :
  apres k (efface gs) = Some st -> exists gs', gapres k gs = Some gs' /\ efface gs' = st.
Proof.
  revert gs. induction k as [|k IH]; intros gs; simpl.
  - intros [= <-]. by exists gs.
  - rewrite giteration_efface. destruct (giteration gs) as [[gs1|r]|e]; try discriminate.
    apply IH.
Qed.

Lemma gapres_inv (I : gstate -> Prop) (k : nat) (gs gs' : gstate) :
  (forall s s', I s -> giteration s = Ok (inl s') -> I s') ->
  I gs -> gapres k gs = Some gs' -> I gs'.
Proof.
  intros Hpas. revert gs. induction k as [|k IH]; intros gs Hgs; simpl.
  - by intros [= <-].
  - destruct (giteration gs) as [[s1|v]|e] eqn:Hit; try discriminate.
    apply IH. by apply (Hpas gs).
Qed.

(** What a full iteration does to the queue, the set and the history. *)
Lemma giteration_inl (gs gs' : gstate) :
  giteration gs = Ok (inl gs') ->
  exists s noeud q' acts cs,
    sorted (gqueue gs) (fun e => f e.2) = Ok ((s, noeud) :: q') /\
    Noeud_est_resolu noeud = false /\
    actions (puzzle noeud) = Ok acts /\
    enfants noeud acts = Ok cs /\
    gqueue gs' = rev (estampille (length (ghist gs)) (acceptes (grs gs) cs)) ++ q' /\
    grs gs' = grs gs ∪ list_to_set (etat <$> acceptes (grs gs) cs) /\
    ghist gs' = rev (acceptes (grs gs) cs) ++ ghist gs.
Proof.
  unfold giteration. destruct (gqueue gs) as [|e0 q0] eqn:Hq; [discriminate|].
  rewrite <- Hq. clear e0 q0 Hq.
  intros (q & Hsort & H)%bind_Ok. destruct q as [|[s noeud] q']; [discriminate|].
  destruct (Noeud_est_resolu noeud) eqn:Hres; [discriminate|].
  apply bind_Ok in H as (acts & Hacts & H). rewrite for_each_gvisiter in H.
  apply bind_Ok in H as (gs1 & (cs & Hcs & [= <-])%bind_Ok & [= <-]).
  exists s, noeud, q', acts, cs. rewrite fold_ginsere. by repeat split.
Qed.
(** ** The visited set *)

Lemma estampille_snd (h : nat) (l : list Noeud) : snd <$> estampille h l = l.
Proof.
  revert h. induction l as [|c l IH]; intros h; [done|].
  by rewrite estampille_cons, fmap_cons, IH.
Qed.

Lemma estampille_elem_of (h : nat) (l : list Noeud) (e : nat * Noeud) :
  e ∈ estampille h l -> e.2 ∈ l /\ (h <= e.1 < h + length l)%nat.
Proof.
  revert h. induction l as [|c l IH]; intros h; [by intros ?%not_elem_of_nil|].
  rewrite estampille_cons. intros [->|Hin]%elem_of_cons.
  - split; [left | simpl; lia].
  - destruct (IH _ Hin) as [H1 H2]. split; [by right | simpl; lia].
Qed.

Lemma list_to_set_rev (l : list string) :
  list_to_set (rev l) =@{gset string} list_to_set l.
Proof.
  apply set_eq. intros x. by rewrite !elem_of_list_to_set, elem_of_rev.
Qed.

Lemma fmap_rev {A B : Type} (fn : A -> B) (l : list A) : fn <$> rev l = rev (fn <$> l).
Proof. apply map_rev. Qed.

Lemma NoDup_rev {A : Type} (l : list A) : NoDup l -> NoDup (rev l).
Proof. intros H. by rewrite <- Permutation_rev. Qed.

Lemma visite_ok_initial (self : Solution) : visite_ok (getat_initial self).
Proof.
  split; [|split; [|split]]; simpl.
  - clear; set_solver.
  - apply NoDup_singleton.
  - intros e ->%list_elem_of_singleton. left.
  - apply NoDup_singleton.
Qed.

Lemma giteration_visite_ok (gs gs' : gstate) :
  visite_ok gs -> giteration gs = Ok (inl gs') -> visite_ok gs'.
Proof.
  intros (Hrs & Hnd & Hsub & Hq)
    (s & noeud & q' & acts & cs & Hsort & _ & _ & _ & Hq' & Hrs' & Hh')%giteration_inl.
  apply sorted_perm in Hsort.
  destruct (acceptes_frais (grs gs) cs) as [Hfrais HndA].
  set (A := acceptes (grs gs) cs) in *. rewrite Forall_forall in Hfrais.
  assert (forall e, e ∈ q' -> e ∈ gqueue gs) as Hq'sub
    by (intros e He; rewrite <- Hsort; by right).
  assert (forall c, c ∈ A -> etat c ∉ etat <$> ghist gs) as Hdisj.
  { intros c Hc Hin. apply (Hfrais c Hc). rewrite Hrs. by apply elem_of_list_to_set. }
  unfold visite_ok. rewrite Hq', Hrs', Hh'. split; [|split; [|split]].
  - rewrite fmap_app, list_to_set_app_L, fmap_rev, list_to_set_rev, Hrs.
    apply (comm_L (∪)).
  - rewrite fmap_app, fmap_rev. apply NoDup_app. split; [by apply NoDup_rev|].
    split; [|done]. intros x Hx. rewrite elem_of_rev in Hx.
    apply list_elem_of_fmap in Hx as (c & -> & Hc). by apply Hdisj.
  - intros e [He|He]%elem_of_app; apply elem_of_app.
    + rewrite elem_of_rev in He. left. apply elem_of_rev.
      by apply (estampille_elem_of _ _ _ He).
    + right. by apply Hsub, Hq'sub.
  - rewrite fmap_app, fmap_rev, estampille_snd, fmap_app, fmap_rev.
    apply NoDup_app. split; [by apply NoDup_rev|]. split.
    + intros x Hx Hx'. rewrite elem_of_rev in Hx.
      apply list_elem_of_fmap in Hx as (c & -> & Hc).
      apply list_elem_of_fmap in Hx' as (n & Hn & (e & -> & He)%list_elem_of_fmap).
      apply (Hdisj c Hc). rewrite Hn. apply list_elem_of_fmap_2. by apply Hsub, Hq'sub.
    + rewrite <- Hsort in Hq. rewrite !fmap_cons in Hq. by apply NoDup_cons in Hq as [_ ?].
Qed.

(** C6: at every point of a run of [resoudre], the set [rs] holds exactly
    the keys of the nodes inserted in the queue so far (the root first), no
    two inserted nodes hold the same key, every queued node has its key in
    [rs], and queued nodes have distinct keys.  An iteration changes [rs]
    only by the keys of the children it inserts, none of which was in [rs]
    before; removing the head adds nothing. *)
Theorem visite_a_l_insertion (self : Solution) (k : nat) (st : state) :
  apres k (etat_initial self) = Some st ->
  exists gs,
    gapres k (getat_initial self) = Some gs /\ efface gs = st /\
    rs st = list_to_set (etat <$> ghist gs) /\
    NoDup (etat <$> ghist gs) /\
    (forall n, n ∈ queue st -> n ∈ ghist gs /\ etat n ∈ rs st) /\
    NoDup (etat <$> queue st) /\
    (forall st', iteration st = Ok (inl st') ->
       exists q noeud nouveaux,
         sorted (queue st) f = Ok (noeud :: q) /\
         queue st' = rev nouveaux ++ q /\
         rs st' = rs st ∪ list_to_set (etat <$> nouveaux) /\
         Forall (fun c => etat c ∉ rs st) nouveaux /\
         exists gs', giteration gs = Ok (inl gs') /\ efface gs' = st' /\
                     ghist gs' = rev nouveaux ++ ghist gs).
Proof.
  intros Hst. destruct (apres_gapres k (getat_initial self) st Hst) as (gs & Hgs & <-).
  exists gs. split; [done|]. split; [done|].
  assert (visite_ok gs) as (Hrs & Hnd & Hsub & Hq).
  { apply (gapres_inv visite_ok k (getat_initial self));
      [apply giteration_visite_ok | apply visite_ok_initial | done]. }
  cbn [efface queue rs]. split; [done|]. split; [done|]. split; [|split; [done|]].
  - intros n (e & -> & He)%list_elem_of_fmap. split; [by apply Hsub|].
    rewrite Hrs. apply elem_of_list_to_set, list_elem_of_fmap_2. by apply Hsub.
  - intros st' Hit. pose proof (giteration_efface gs) as Heff.
    change (iteration (efface gs) = Ok (inl st')) in Hit. rewrite Hit in Heff.
    destruct (giteration gs) as [[gs'|r]|e] eqn:Hgit; try discriminate.
    injection Heff as ->.
    destruct (giteration_inl gs gs' Hgit)
      as (s & noeud & q' & acts & cs & Hsort & _ & _ & _ & Hq' & Hrs' & Hh').
    exists (snd <$> q'), noeud, (acceptes (grs gs) cs).
    split. { rewrite sorted_snd, Hsort. reflexivity. }
    cbn [efface queue rs]. rewrite Hq', fmap_app, fmap_rev, estampille_snd.
    split; [done|]. split; [done|]. split; [apply acceptes_frais|].
    by exists gs'.
Qed.

Lemma visite_a_l_insertion_witness :
  exists st st' gs gs' noeud q nouveaux acts cs,
    apres 1 (etat_initial (mkSolution depart)) = Some st /\
    iteration st = Ok (inl st') /\
    gapres 1 (getat_initial (mkSolution depart)) = Some gs /\ efface gs = st /\
    giteration gs = Ok (inl gs') /\ efface gs' = st' /\
    etat <$> ghist gs =
      ["135468702"; "135480762"; "135048762"; "105438762"; "135408762"]%string /\
    rs st = list_to_set (etat <$> ghist gs) /\
    NoDup (etat <$> ghist gs) /\
    (forall n, n ∈ queue st -> n ∈ ghist gs /\ etat n ∈ rs st) /\
    NoDup (etat <$> queue st) /\
    sorted (queue st) f = Ok (noeud :: q) /\
    etat noeud = "135468702"%string /\
    actions (puzzle noeud) = Ok acts /\ enfants noeud acts = Ok cs /\
    etat <$> cs = ["135408762"; "135468072"; "135468720"]%string /\
    etat <$> nouveaux = ["135468072"; "135468720"]%string /\
    queue st' = rev nouveaux ++ q /\
    rs st' = rs st ∪ list_to_set (etat <$> nouveaux) /\
    Forall (fun c => etat c ∉ rs st) nouveaux /\
    ghist gs' = rev nouveaux ++ ghist gs.
Proof.
  set (X := etat_initial (mkSolution depart)).
  set (Y := getat_initial (mkSolution depart)).
  assert ((fun s => match iteration s with Ok (inl _) => true | _ => false end)
            <$> apres 1 X = Some true) as Hc by (vm_compute; reflexivity).
  destruct (apres 1 X) as [st|] eqn:Hst; [|discriminate Hc].
  injection Hc as Hc.
  destruct (iteration st) as [[st'|?]|?] eqn:Hit; try discriminate Hc. clear Hc.
  destruct (visite_a_l_insertion _ _ _ Hst)
    as (gs & Hgs & Heff & Hrs & Hnd & Hq & Hndq & Hins).
  fold Y in Hgs.
  destruct (Hins _ Hit)
    as (q & noeud & nouveaux & Hsort & Hq' & Hrs' & Hfrais & gs' & Hgit & Heff' & Hh').
  assert ((fun g => etat <$> ghist g) <$> gapres 1 Y
          = Some ["135468702"; "135480762"; "135048762"; "105438762"; "135408762"]%string)
    as Hh by (vm_compute; reflexivity).
  rewrite Hgs in Hh. injection Hh as Hh.
  assert ((fun g => match giteration g with
                    | Ok (inl g') => Some (etat <$> ghist g')
                    | _ => None
                    end) <$> gapres 1 Y
          = Some (Some (["135468720"; "135468072"]%string
                        ++ ["135468702"; "135480762"; "135048762"; "105438762";
                            "135408762"]%string))) as Hn
    by (vm_compute; reflexivity).
  rewrite Hgs in Hn. cbn [fmap option_fmap option_map] in Hn. rewrite Hgit in Hn.
  injection Hn as Hn. rewrite Hh', fmap_app, Hh in Hn.
  apply (app_inv_tail _ _ ["135468720"; "135468072"]%string) in Hn.
  rewrite fmap_rev in Hn.
  apply (f_equal (@rev string)) in Hn. rewrite rev_involutive in Hn. cbn [rev app] in Hn.
  assert ((fun s => match sorted (queue s) f with
                    | Ok (n :: _) =>
                        match actions (puzzle n) with
                        | Ok acts =>
                            match enfants n acts with
                            | Ok cs => Some (etat n, etat <$> cs)
                            | Raise _ => None
                            end
                        | Raise _ => None
                        end
                    | _ => None
                    end) <$> Some st
          = Some (Some ("135468702"%string,
                        ["135408762"; "135468072"; "135468720"]%string))) as Hcs.
  { rewrite <- Hst. vm_compute. reflexivity. }
  cbn [fmap option_fmap option_map] in Hcs. rewrite Hsort in Hcs.
  destruct (actions (puzzle noeud)) as [acts|] eqn:Hacts; [|discriminate Hcs].
  destruct (enfants noeud acts) as [cs|] eqn:Hcs'; [|discriminate Hcs].
  injection Hcs as He Hcs.
  exists st, st', gs, gs', noeud, q, nouveaux, acts, cs.
  split; [reflexivity|]. split; [exact Hit|]. split; [exact Hgs|]. split; [exact Heff|].
  split; [exact Hgit|]. split; [exact Heff'|]. split; [exact Hh|]. split; [exact Hrs|].
  split; [exact Hnd|]. split; [exact Hq|]. split; [exact Hndq|]. split; [exact Hsort|].
  split; [exact He|]. split; [exact Hacts|]. split; [exact Hcs'|]. split; [exact Hcs|].
  split; [exact Hn|]. split; [exact Hq'|]. split; [exact Hrs'|]. split; [exact Hfrais|].
  exact Hh'.
Defined.
(** ** The order in which nodes leave the queue *)

Lemma StronglySorted_fmap_inv {A B : Type} (fn : A -> B) (R : relation B) (l : list A) :
  StronglySorted R (fn <$> l) -> StronglySorted (fun x y => R (fn x) (fn y)) l.
Proof.
  induction l as [|x l IH]; [constructor|].
  rewrite fmap_cons. intros [H1 H2]%StronglySorted_cons.
  apply StronglySorted_cons. split; [rewrite Forall_fmap in H1; exact H1 | by apply IH].
Qed.

Lemma StronglySorted_impl_elem {A : Type} (R R' : relation A) (l : list A) :
  (forall x y, x ∈ l -> y ∈ l -> R x y -> R' x y) ->
  StronglySorted R l -> StronglySorted R' l.
Proof.
  intros Himpl H. induction H as [|x l Hl IH Hx]; [constructor|].
  apply StronglySorted_cons. split.
  - rewrite Forall_forall in Hx |- *. intros y Hy.
    apply Himpl; [left | by right | by apply Hx].
  - apply IH. intros y z Hy Hz. apply Himpl; by right.
Qed.

(** The queue once sorted: by [f] first, then the latest inserted first. *)
Lemma sorted_avant (l q : list (nat * Noeud)) :
  StronglySorted plus_recent l ->
  sorted l (fun e => f e.2) = Ok q ->
  StronglySorted avant q.
Proof.
  intros Hl (deco & Hdeco & ->)%sorted_Ok.
  apply mapM_decore in Hdeco as [Hsnd Hkey]. rewrite <- Hsnd in Hl.
  apply StronglySorted_fmap_inv, sort_by_key_sorted in Hl.
  rewrite <- (sort_by_key_perm deco) in Hkey. rewrite Forall_forall in Hkey.
  apply (StronglySorted_fmap snd (fun d1 d2 => avant d1.2 d2.2)); [done|].
  eapply StronglySorted_impl_elem; [|exact Hl].
  intros d1 d2 H1%Hkey H2%Hkey [Hle Heq]. exists d1.1, d2.1.
  split; [done|]. split; [done|]. split; [done|].
  intros Hk. apply (Heq Hk). congruence.
Qed.

Lemma estampille_decroit (h : nat) (l : list Noeud) :
  StronglySorted (fun x y : nat * Noeud => (y.1 < x.1)%nat) (rev (estampille h l)).
Proof.
  revert h. induction l as [|c l IH]; intros h; [constructor|].
  rewrite estampille_cons. cbn [rev]. apply StronglySorted_app_2.
  - intros x y Hx ->%list_elem_of_singleton. rewrite elem_of_rev in Hx.
    apply estampille_elem_of in Hx as [_ Hx]. simpl. lia.
  - apply IH.
  - repeat constructor.
Qed.

Lemma estampille_fst (h : nat) (l : list Noeud) :
  fst <$> estampille h l = seq h (length l).
Proof.
  revert h. induction l as [|c l IH]; intros h; [done|].
  by rewrite estampille_cons, fmap_cons, IH.
Qed.

Lemma ordre_file_initial (self : Solution) : ordre_file (getat_initial self).
Proof.
  split; [|split]; simpl.
  - repeat constructor.
  - repeat constructor.
  - apply NoDup_singleton.
Qed.

Lemma giteration_ordre_file (gs gs' : gstate) :
  ordre_file gs -> giteration gs = Ok (inl gs') -> ordre_file gs'.
Proof.
  intros (Hss & Hlt & Hnd)
    (s & noeud & q' & acts & cs & Hsort & _ & _ & _ & Hq' & _ & Hh')%giteration_inl.
  pose proof (sorted_avant _ _ Hss Hsort) as Hav.
  apply sorted_perm in Hsort.
  rewrite <- Hsort in Hlt, Hnd. apply Forall_cons in Hlt as [_ Hlt].
  rewrite fmap_cons in Hnd. apply NoDup_cons in Hnd as [_ Hnd].
  apply StronglySorted_cons in Hav as [_ Hav].
  set (A := acceptes (grs gs) cs) in *. set (h := length (ghist gs)) in *.
  rewrite Forall_forall in Hlt.
  unfold ordre_file. rewrite Hq', Hh'. split; [|split].
  - apply StronglySorted_app_2.
    + intros x y Hx Hy _. rewrite elem_of_rev in Hx.
      apply estampille_elem_of in Hx as [_ Hx]. specialize (Hlt y Hy). simpl in Hlt. lia.
    + eapply StronglySorted_impl_elem; [|apply estampille_decroit].
      by intros x y _ _ Hxy _.
    + eapply StronglySorted_impl_elem; [|exact Hav].
      intros x y _ _ (kx & ky & Hx & Hy & _ & Heq) Hf. apply Heq. congruence.
  - apply Forall_app. rewrite length_app, length_rev. split.
    + apply Forall_forall. intros e He. rewrite elem_of_rev in He.
      apply estampille_elem_of in He as [_ He]. fold h. lia.
    + apply Forall_forall. intros e He. specialize (Hlt e He). simpl in Hlt. fold h. lia.
  - rewrite fmap_app, fmap_rev, estampille_fst. apply NoDup_app.
    split; [apply NoDup_rev, NoDup_seq|]. split; [|done].
    intros x Hx (e & -> & He)%list_elem_of_fmap. rewrite elem_of_rev in Hx.
    apply elem_of_seq in Hx. specialize (Hlt e He). simpl in Hlt. lia.
Qed.

(** C5: at every iteration of a run of [resoudre], the node removed from
    the queue has the least [f] of all queued nodes, and among the queued
    nodes with that same [f] it is the one inserted last.  The children that
    the iteration inserts are the accepted ones, stamped in the order in
    which [actions] enumerated their moves, after every node already queued:
    so among children of equal [f] the one enumerated last leaves first. *)
Theorem ordre_de_sortie (self : Solution) (k : nat) (st : state) :
  apres k (etat_initial self) = Some st ->
  exists gs,
    gapres k (getat_initial self) = Some gs /\ efface gs = st /\
    NoDup (fst <$> gqueue gs) /\
    Forall (fun e => (e.1 < length (ghist gs))%nat) (gqueue gs) /\
    (forall noeud q, sorted (queue st) f = Ok (noeud :: q) ->
       exists s q' k0,
         sorted (gqueue gs) (fun e => f e.2) = Ok ((s, noeud) :: q') /\
         q = snd <$> q' /\ f noeud = Ok k0 /\
         forall e, e ∈ gqueue gs ->
           exists ke, f e.2 = Ok ke /\ k0 <= ke /\ (ke = k0 -> (e.1 <= s)%nat)) /\
    (forall st', iteration st = Ok (inl st') ->
       exists s noeud q' acts cs gs',
         sorted (gqueue gs) (fun e => f e.2) = Ok ((s, noeud) :: q') /\
         actions (puzzle noeud) = Ok acts /\ enfants noeud acts = Ok cs /\
         giteration gs = Ok (inl gs') /\ efface gs' = st' /\
         acceptes (rs st) cs `sublist_of` cs /\
         gqueue gs' =
           rev (estampille (length (ghist gs)) (acceptes (rs st) cs)) ++ q').
Proof.
  intros Hst. destruct (apres_gapres k (getat_initial self) st Hst) as (gs & Hgs & <-).
  exists gs. split; [done|]. split; [done|].
  assert (ordre_file gs) as (Hss & Hlt & Hnd).
  { apply (gapres_inv ordre_file k (getat_initial self));
      [apply giteration_ordre_file | apply ordre_file_initial | done]. }
  split; [done|]. split; [done|]. split.
  - intros noeud q Hsort. cbn [efface queue] in Hsort. rewrite sorted_snd in Hsort.
    destruct (sorted (gqueue gs) _) as [[|[s n] q']|e] eqn:Hgsort; try discriminate.
    injection Hsort as -> <-.
    pose proof (sorted_avant _ _ Hss Hgsort) as Hav.
    apply StronglySorted_cons in Hav as [Hav _]. rewrite Forall_forall in Hav.
    pose proof Hgsort as (deco & Hdeco & Hq)%sorted_Ok.
    apply mapM_decore in Hdeco as [_ Hkey].
    rewrite <- (sort_by_key_perm deco), Forall_forall in Hkey.
    assert (exists k0, f noeud = Ok k0) as [k0 Hk0].
    { destruct (sort_by_key deco) as [|[k0 e0] L]; [discriminate|].
      injection Hq as <- _. exists k0. apply (Hkey (k0, (s, noeud))). left. }
    exists s, q', k0. split; [done|]. split; [done|]. split; [done|].
    intros e He. rewrite <- (sorted_perm _ _ _ Hgsort) in He.
    apply elem_of_cons in He as [->|He].
    + exists k0. split; [done|]. split; [lia | intros _; simpl; lia].
    + destruct (Hav e He) as (kx & ky & Hx & Hy & Hle & Heq). simpl in Hx.
      assert (kx = k0) as -> by congruence.
      exists ky. split; [done|]. split; [done|]. intros ->.
      specialize (Heq eq_refl). simpl in Heq. lia.
  - intros st' Hit. pose proof (giteration_efface gs) as Heff.
    rewrite Hit in Heff.
    destruct (giteration gs) as [[gs'|r]|e] eqn:Hgit; try discriminate.
    injection Heff as ->.
    destruct (giteration_inl gs gs' Hgit)
      as (s & noeud & q' & acts & cs & Hsort & _ & Hacts & Hcs & Hq' & _).
    exists s, noeud, q', acts, cs, gs'. cbn [efface rs].
    repeat (split; [done|]). split; [apply acceptes_sublist | done].
Qed.

Lemma ordre_de_sortie_witness :
  (exists st st' gs gs' noeud q',
     apres 1 (etat_initial (mkSolution depart)) = Some st /\
     iteration st = Ok (inl st') /\
     gapres 1 (getat_initial (mkSolution depart)) = Some gs /\ efface gs = st /\
     giteration gs = Ok (inl gs') /\ efface gs' = st' /\
     vue gs = [(4%nat, Ok 10, Some "B"%string); (3%nat, Ok 10, Some "D"%string);
               (2%nat, Ok 12, Some "G"%string); (1%nat, Ok 12, Some "H"%string)] /\
     sorted (gqueue gs) (fun e => f e.2) = Ok ((4%nat, noeud) :: q') /\
     (forall e, e ∈ gqueue gs ->
        exists ke, f e.2 = Ok ke /\ 10 <= ke /\ (ke = 10 -> (e.1 <= 4)%nat)) /\
     vue gs' = [(6%nat, Ok 10, Some "D"%string); (5%nat, Ok 12, Some "G"%string);
                (3%nat, Ok 10, Some "D"%string); (2%nat, Ok 12, Some "G"%string);
                (1%nat, Ok 12, Some "H"%string)]) /\
  (exists st st' gs gs' noeud q',
     apres 2 (etat_initial (mkSolution depart)) = Some st /\
     iteration st = Ok (inl st') /\
     gapres 2 (getat_initial (mkSolution depart)) = Some gs /\ efface gs = st /\
     giteration gs = Ok (inl gs') /\ efface gs' = st' /\
     vue gs = [(6%nat, Ok 10, Some "D"%string); (5%nat, Ok 12, Some "G"%string);
               (3%nat, Ok 10, Some "D"%string); (2%nat, Ok 12, Some "G"%string);
               (1%nat, Ok 12, Some "H"%string)] /\
     sorted (gqueue gs) (fun e => f e.2) = Ok ((6%nat, noeud) :: q') /\
     (forall e, e ∈ gqueue gs ->
        exists ke, f e.2 = Ok ke /\ 10 <= ke /\ (ke = 10 -> (e.1 <= 6)%nat)) /\
     vue gs' = [(7%nat, Ok 10, Some "H"%string); (3%nat, Ok 10, Some "D"%string);
                (5%nat, Ok 12, Some "G"%string); (2%nat, Ok 12, Some "G"%string);
                (1%nat, Ok 12, Some "H"%string)]).
Proof.
  split.
  - set (X := etat_initial (mkSolution depart)).
    set (Y := getat_initial (mkSolution depart)).
    assert ((fun s => match iteration s with Ok (inl _) => true | _ => false end)
              <$> apres 1 X = Some true) as Hc by (vm_compute; reflexivity).
    destruct (apres 1 X) as [st|] eqn:Hst; [|discriminate Hc].
    injection Hc as Hc.
    destruct (iteration st) as [[st'|?]|?] eqn:Hit; try discriminate Hc. clear Hc.
    destruct (ordre_de_sortie _ _ _ Hst) as (gs & Hgs & Heff & _ & _ & Hpop & Hins).
    fold Y in Hgs.
    destruct (Hins _ Hit)
      as (s & noeud & q' & acts & cs & gs' & Hsort & _ & _ & Hgit & Heff' & _ & _).
    destruct (Hpop noeud (snd <$> q')) as (s2 & q2 & k0 & Hsort2 & _ & Hk0 & Hmin).
    { rewrite <- Heff. cbn [efface queue]. by rewrite sorted_snd, Hsort. }
    rewrite Hsort in Hsort2. injection Hsort2 as <- _.
    assert ((fun g => match sorted (gqueue g) (fun e => f e.2) with
                      | Ok ((s, n) :: _) => Some (s, f n)
                      | _ => None
                      end) <$> gapres 1 Y = Some (Some (4%nat, Ok 10))) as Hv
      by (vm_compute; reflexivity).
    rewrite Hgs in Hv. cbn [fmap option_fmap option_map] in Hv. rewrite Hsort in Hv.
    injection Hv as -> Hf. rewrite Hk0 in Hf. injection Hf as ->.
    exists st, st', gs, gs', noeud, q'.
    split; [reflexivity|]. split; [exact Hit|]. split; [exact Hgs|]. split; [exact Heff|].
    split; [exact Hgit|]. split; [exact Heff'|]. split.
    { eassert (vue <$> gapres 1 Y = Some _) as Hv by (vm_compute; reflexivity).
      rewrite Hgs in Hv. injection Hv as Hv. exact Hv. }
    split; [exact Hsort|]. split; [exact Hmin|].
    eassert ((fun g => match giteration g with Ok (inl g') => Some (vue g') | _ => None end)
              <$> gapres 1 Y = Some (Some _)) as Hv by (vm_compute; reflexivity).
    rewrite Hgs in Hv. cbn [fmap option_fmap option_map] in Hv. rewrite Hgit in Hv.
    injection Hv as Hv. exact Hv.
  - set (X := etat_initial (mkSolution depart)).
    set (Y := getat_initial (mkSolution depart)).
    assert ((fun s => match iteration s with Ok (inl _) => true | _ => false end)
              <$> apres 2 X = Some true) as Hc by (vm_compute; reflexivity).
    destruct (apres 2 X) as [st|] eqn:Hst; [|discriminate Hc].
    injection Hc as Hc.
    destruct (iteration st) as [[st'|?]|?] eqn:Hit; try discriminate Hc. clear Hc.
    destruct (ordre_de_sortie _ _ _ Hst) as (gs & Hgs & Heff & _ & _ & Hpop & Hins).
    fold Y in Hgs.
    destruct (Hins _ Hit)
      as (s & noeud & q' & acts & cs & gs' & Hsort & _ & _ & Hgit & Heff' & _ & _).
    destruct (Hpop noeud (snd <$> q')) as (s2 & q2 & k0 & Hsort2 & _ & Hk0 & Hmin).
    { rewrite <- Heff. cbn [efface queue]. by rewrite sorted_snd, Hsort. }
    rewrite Hsort in Hsort2. injection Hsort2 as <- _.
    assert ((fun g => match sorted (gqueue g) (fun e => f e.2) with
                      | Ok ((s, n) :: _) => Some (s, f n)
                      | _ => None
                      end) <$> gapres 2 Y = Some (Some (6%nat, Ok 10))) as Hv
      by (vm_compute; reflexivity).
    rewrite Hgs in Hv. cbn [fmap option_fmap option_map] in Hv. rewrite Hsort in Hv.
    injection Hv as -> Hf. rewrite Hk0 in Hf. injection Hf as ->.
    exists st, st', gs, gs', noeud, q'.
    split; [reflexivity|]. split; [exact Hit|]. split; [exact Hgs|]. split; [exact Heff|].
    split; [exact Hgit|]. split; [exact Heff'|]. split.
    { eassert (vue <$> gapres 2 Y = Some _) as Hv by (vm_compute; reflexivity).
      rewrite Hgs in Hv. injection Hv as Hv. exact Hv. }
    split; [exact Hsort|]. split; [exact Hmin|].
    eassert ((fun g => match giteration g with Ok (inl g') => Some (vue g') | _ => None end)
              <$> gapres 2 Y = Some (Some _)) as Hv by (vm_compute; reflexivity).
    rewrite Hgs in Hv. cbn [fmap option_fmap option_map] in Hv. rewrite Hgit in Hv.
    injection Hv as Hv. exact Hv.
Defined.
(** ** The returned path is a solution of the initial board *)

Lemma suite_noeuds_app (prec n c : Noeud) (l : list Noeud) :
  suite_noeuds prec l -> last (prec :: l) = Some n -> pas_legal n c ->
  suite_noeuds prec (l ++ [c]).
Proof.
  revert prec. induction l as [|x l IH]; intros prec Hl Hlast Hc.
  - injection Hlast as ->. by split.
  - destruct Hl as [H1 H2]. split; [done|]. by apply IH.
Qed.

Lemma solution_de_enfant (p pz : Puzzle) (n : Noeud) (lab : string) :
  solution_de p (chemin n) -> pas_legal n (Noeud_init pz (Some n) (Some lab)) ->
  solution_de p (chemin (Noeud_init pz (Some n) (Some lab))).
Proof.
  rewrite chemin_enfant. pose proof (chemin_dernier n) as Hlast.
  destruct (chemin n) as [|racine l]; [done|].
  intros (H1 & H2 & H3) Hpas. split; [done|]. split; [done|].
  by apply (suite_noeuds_app racine n).
Qed.

Lemma iteration_solution_de (p : Puzzle) (st st' : state) :
  Forall (fun n => solution_de p (chemin n)) (queue st) ->
  iteration st = Ok (inl st') ->
  Forall (fun n => solution_de p (chemin n)) (queue st').
Proof.
  intros Hq (deco & noeud & q' & acts & cs & _ & Hd & Hs & _ & Hacts & Hcs & ->)%iteration_inl.
  apply mapM_decore in Hd as [Hd _].
  assert (noeud :: q' ≡ₚ queue st) as Hperm
    by (by rewrite <- Hs, <- Hd, sort_by_key_perm).
  rewrite <- Hperm in Hq. apply Forall_cons in Hq as [Hn Hq'].
  rewrite fold_insere. cbn [queue rs]. apply Forall_app. split; [|done].
  apply Forall_rev, acceptes_Forall. apply Forall_forall. intros c Hc.
  apply enfants_Forall2 in Hcs.
  destruct (Forall2_elem_of_r _ _ _ _ Hcs Hc) as ([m lab] & Hin & pz & Hpz & ->).
  apply solution_de_enfant; [done|]. by exists acts, m, lab.
Qed.

(** Whatever the initial board, a path that [resoudre] returns is a
    solution of it: the first node holds the initial board and no action,
    each later node holds the board that one of the moves listed by
    [actions] on the board before it returns, with that move's label as its
    action, and the last board satisfies [est_resolu]. *)
Theorem resoudre_solution (self : Solution) (fuel : nat) (path : list Noeud) :
  resoudre self fuel = Some (Ok (Some path)) ->
  solution_de (initial self) path /\
  exists dernier, last path = Some dernier /\ est_resolu (puzzle dernier) = true.
Proof.
  intros (k & s & _ & Hs & Hfin)%boucle_apres.
  apply iteration_chemin in Hfin as (noeud & Hin & Hr & ->).
  assert (Forall (fun n => solution_de (initial self) (chemin n)) (queue s)) as Hok.
  { apply (apres_inv (fun st => Forall (fun n => solution_de (initial self) (chemin n))
                                  (queue st)) k (etat_initial self));
      [apply iteration_solution_de | | exact Hs].
    apply Forall_cons_2; [|apply Forall_nil_2]. by repeat split. }
  rewrite Forall_forall in Hok. split; [by apply Hok|].
  exists noeud. split; [apply chemin_dernier | exact Hr].
Qed.

Lemma resoudre_solution_witness :
  exists path,
    resoudre (mkSolution {| largeur := 3; table := grille 1 2 3 4 0 6 7 5 8 |}) 5
    = Some (Ok (Some path)) /\
    solution_de {| largeur := 3; table := grille 1 2 3 4 0 6 7 5 8 |} path.
Proof.
  eexists. split.
  - vm_compute. reflexivity.
  - apply (resoudre_solution
             (mkSolution {| largeur := 3; table := grille 1 2 3 4 0 6 7 5 8 |}) 5).
    vm_compute. reflexivity.
Defined.

Lemma liens_g (prec : Noeud) (l : list Noeud) (i : nat) (n : Noeud) :
  liens prec l -> l !! i = Some n -> g n = g prec + 1 + Z.of_nat i.
Proof.
  revert prec i. induction l as [|x l IH]; intros prec i Hl Hi; [done|].
  destruct Hl as (_ & Hg & Hl). destruct i as [|i].
  - injection Hi as <-. lia.
  - simpl in Hi. rewrite (IH x i Hl Hi). lia.
Qed.

(** In a path that [resoudre] returns, the cost [g] of a node is its rank
    in the path; so the number of moves of the path, its length minus one, is
    the [g] of its last node. *)
Theorem resoudre_g_rang (self : Solution) (fuel : nat) (path : list Noeud) :
  resoudre self fuel = Some (Ok (Some path)) ->
  (forall i n, path !! i = Some n -> g n = Z.of_nat i) /\
  exists dernier, last path = Some dernier /\ g dernier = Z.of_nat (length path) - 1.
Proof.
  intros (k & s & _ & Hs & Hfin)%boucle_apres.
  apply iteration_chemin in Hfin as (noeud & Hin & Hr & ->).
  assert (Forall (fun n => chemin_ok (chemin n)) (queue s)) as Hok.
  { apply (apres_inv (fun st => Forall (fun n => chemin_ok (chemin n)) (queue st))
             k (etat_initial self)); [apply iteration_chemin_ok | | exact Hs].
    by repeat constructor. }
  rewrite Forall_forall in Hok. specialize (Hok noeud Hin).
  pose proof (chemin_dernier noeud) as Hlast.
  destruct (chemin noeud) as [|racine reste]; [done|].
  destruct Hok as (H0 & _ & Hl).
  assert (forall i n, (racine :: reste) !! i = Some n -> g n = Z.of_nat i) as Hrang.
  { intros [|i] n Hi; [by injection Hi as <-|].
    simpl in Hi. rewrite (liens_g racine reste i n Hl Hi). lia. }
  split; [exact Hrang|]. exists noeud. split; [done|].
  rewrite last_lookup in Hlast. rewrite (Hrang _ _ Hlast). simpl. lia.
Qed.

Lemma resoudre_g_rang_witness :
  exists path,
    resoudre (mkSolution {| largeur := 3; table := grille 1 2 3 4 0 6 7 5 8 |}) 5
    = Some (Ok (Some path)) /\
    exists dernier, last path = Some dernier /\ g dernier = Z.of_nat (length path) - 1.
Proof.
  eexists. split.
  - vm_compute. reflexivity.
  - apply (resoudre_g_rang
             (mkSolution {| largeur := 3; table := grille 1 2 3 4 0 6 7 5 8 |}) 5).
    vm_compute. reflexivity.
Defined.

(** When the initial board already satisfies [est_resolu] and its
    [manhattan] is defined, [resoudre] returns the path made of the root
    alone at the first iteration. *)
Theorem resoudre_deja_resolu (self : Solution) (fuel : nat) (k : Z) :
  est_resolu (initial self) = true -> manhattan (initial self) = Ok k ->
  resoudre self (S fuel) = Some (Ok (Some [Noeud_init (initial self) None None])).
Proof.
  intros Hres Hman. unfold resoudre. cbn [boucle]. unfold iteration.
  cbn [etat_initial queue]. unfold sorted. cbn [mapM]. unfold f at 1, h.
  cbn [Noeud_init puzzle g]. rewrite Hman. cbn [mbind result_bind mret result_ret].
  cbn [sort_by_key foldr insert_by_key fmap list_fmap snd].
  unfold Noeud_est_resolu.
  change (puzzle (Noeud_init (initial self) None None)) with (initial self).
  by rewrite Hres.
Qed.

Lemma resoudre_deja_resolu_witness :
  resoudre (mkSolution but) 1 = Some (Ok (Some [Noeud_init but None None])).
Proof.
  apply (resoudre_deja_resolu (mkSolution but) 0 0); reflexivity.
Defined.
(** ** The heuristic along legal moves *)

Lemma dist_trou (i j : Z) : dist 0 i j = 0.
Proof. reflexivity. Qed.

(** Moving a tile to an adjacent cell changes its distance by one. *)
Lemma dist_voisines (v : Z) (x y : pos) :
  v <> 0 -> voisines x y -> Z.abs (dist v y.1 y.2 - dist v x.1 x.2) = 1.
Proof.
  intros Hv Hxy. unfold dist. destruct (Z.eqb_spec v 0) as [|_]; [done|].
  destruct x as [i j], y as [r c]. unfold voisines in Hxy. simpl in *.
  generalize ((v - 1) `div` 3) ((v - 1) `mod` 3). intros a b. lia.
Qed.

Ltac tuile_deplacee :=
  match goal with
  | |- context [dist (Z.pos ?v) ?i ?j] =>
      match goal with
      | |- context [dist (Z.pos v) ?r ?c] =>
          let H := fresh in
          assert (Z.abs (dist (Z.pos v) r c - dist (Z.pos v) i j) = 1) as H
            by (apply (dist_voisines (Z.pos v) (i, j) (r, c));
                [done | unfold voisines; simpl; lia]);
          lia
      end
  end.

Lemma manhattan_voisins (p q : Puzzle) :
  valide3 p -> q ∈ voisins p ->
  exists hp hq, manhattan p = Ok hp /\ manhattan q = Ok hq /\ Z.abs (hq - hp) = 1.
Proof.
  intros Hp Hpq.
  destruct (valide3_grille p Hp) as (a & b & c & d & e & f & g & h & i & -> & H).
  cas_trou H; vm_compute in Hpq;
    repeat (apply elem_of_cons in Hpq as [-> | Hpq]);
    try (by apply not_elem_of_nil in Hpq);
    eexists _, _; (split; [apply manhattan_grille|]);
    (split; [apply (manhattan_grille 3)|]); rewrite !dist_trou; tuile_deplacee.
Qed.

(** On valid 3 x 3 boards a legal move changes [manhattan] by exactly
    one. *)
Theorem manhattan_coup (p q : Puzzle) :
  valide3 p -> coup p q ->
  exists hp hq, manhattan p = Ok hp /\ manhattan q = Ok hq /\ Z.abs (hq - hp) = 1.
Proof.
  intros Hp Hpq. apply coup_voisins in Hpq. by apply manhattan_voisins.
Qed.

Lemma manhattan_coup_witness :
  exists hp hq,
    manhattan but = Ok hp /\
    manhattan {| largeur := 3; table := grille 1 2 3 4 5 0 7 8 6 |} = Ok hq /\
    Z.abs (hq - hp) = 1.
Proof.
  apply manhattan_coup.
  - split; [reflexivity|]. split; [reflexivity|]. split; [by repeat constructor|].
    apply (Permutation_app_comm [1; 2; 3; 4; 5; 6; 7; 8] [0]).
  - exists [(create_move but (1, 2) (2, 2), "H"%string);
            (create_move but (2, 1) (2, 2), "G"%string)],
      (create_move but (1, 2) (2, 2)), "H"%string.
    split; [reflexivity|]. split; [left | reflexivity].
Defined.

(** [manhattan] never overestimates: on a valid 3 x 3 board it is at most
    the number of moves of any legal sequence that ends at the solved
    board. *)
Theorem manhattan_admissible (p : Puzzle) (l : list Puzzle) :
  valide3 p -> suite_legale p l -> last (p :: l) = Some but ->
  exists hp, manhattan p = Ok hp /\ hp <= Z.of_nat (length l).
Proof.
  intros Hp Hl. induction Hl as [p|p q l Hpq Hl IH].
  - intros [= ->]. exists 0. split; [reflexivity | simpl; lia].
  - intros Hlast. destruct (coup_valide3 p q Hp Hpq) as [Hq _].
    destruct (IH Hq) as (hq & Hhq & Hle); [done|].
    apply coup_voisins in Hpq.
    destruct (manhattan_voisins p q Hp Hpq) as (hp & hq' & Hhp & Hhq' & Habs).
    assert (hq' = hq) as -> by congruence.
    exists hp. split; [done|]. rewrite length_cons. lia.
Qed.

Lemma manhattan_admissible_witness :
  exists hp,
    manhattan {| largeur := 3; table := grille 1 2 3 4 5 0 7 8 6 |} = Ok hp /\
    hp <= Z.of_nat (length [but]).
Proof.
  apply manhattan_admissible.
  - apply grille_valide3. apply (bool_decide_unpack _). vm_compute. exact I.
  - apply est_suite_legale. vm_compute. reflexivity.
  - reflexivity.
Defined.

Lemma chaine_f (prec : Noeud) (l : list Noeud) (i : nat) (a b : Noeud) :
  valide3 (puzzle prec) -> liens prec l -> suite_noeuds prec l ->
  (prec :: l) !! i = Some a -> l !! i = Some b ->
  exists fa fb, f a = Ok fa /\ f b = Ok fb /\ (fb = fa \/ fb = fa + 2).
Proof.
  revert prec i. induction l as [|x l IH]; intros prec i Hp Hl Hs Ha Hb; [done|].
  destruct Hl as (_ & Hg & Hl). destruct Hs as [Hpas Hs].
  assert (coup (puzzle prec) (puzzle x)) as Hcoup.
  { destruct Hpas as (ms & m & lab & H1 & H2 & H3 & _). by exists ms, m, lab. }
  destruct i as [|i].
  - injection Ha as <-. injection Hb as <-. apply coup_voisins in Hcoup.
    destruct (manhattan_voisins _ _ Hp Hcoup) as (hp & hq & Hhp & Hhq & Habs).
    exists (hp + g prec), (hq + g x). unfold f, h. rewrite Hhp, Hhq.
    split; [done|]. split; [done|]. lia.
  - apply (IH x i); try done. by apply (coup_valide3 (puzzle prec)).
Qed.

(** On a valid 3 x 3 board, [f] never decreases along the path that
    [resoudre] returns: from a node to the next it stays the same or grows
    by two. *)
Theorem resoudre_f_croissant (self : Solution) (fuel : nat) (path : list Noeud) :
  valide3 (initial self) -> resoudre self fuel = Some (Ok (Some path)) ->
  forall i a b, path !! i = Some a -> path !! S i = Some b ->
    exists fa fb, f a = Ok fa /\ f b = Ok fb /\ (fb = fa \/ fb = fa + 2).
Proof.
  intros Hv (k & s & _ & Hs & Hfin)%boucle_apres.
  apply iteration_chemin in Hfin as (noeud & Hin & _ & ->).
  set (I := fun st => Forall (fun n => chemin_ok (chemin n) /\
                                       solution_de (initial self) (chemin n)) (queue st)).
  assert (I s) as Hok.
  { apply (apres_inv I k (etat_initial self)); [| |exact Hs].
    - intros st st' Hst Hit. unfold I in *. apply Forall_and in Hst as [H1 H2].
      apply Forall_and. split; [by apply (iteration_chemin_ok st) |
                                  by apply (iteration_solution_de _ st)].
    - apply Forall_cons_2; [|apply Forall_nil_2]. by repeat split. }
  unfold I in Hok. rewrite Forall_forall in Hok. destruct (Hok noeud Hin) as [Hc Hsol].
  destruct (chemin noeud) as [|racine reste]; [done|].
  destruct Hc as (_ & _ & Hl). destruct Hsol as (Hr & _ & Hsuite).
  intros i a b Ha Hb. apply (chaine_f racine reste i); try done. by rewrite Hr.
Qed.

Lemma resoudre_f_croissant_witness :
  exists path,
    resoudre (mkSolution {| largeur := 3; table := grille 1 2 3 4 0 6 7 5 8 |}) 5
    = Some (Ok (Some path)) /\
    forall i a b, path !! i = Some a -> path !! S i = Some b ->
      exists fa fb, f a = Ok fa /\ f b = Ok fb /\ (fb = fa \/ fb = fa + 2).
Proof.
  eexists. split.
  - vm_compute. reflexivity.
  - apply (resoudre_f_croissant
             (mkSolution {| largeur := 3; table := grille 1 2 3 4 0 6 7 5 8 |}) 5).
    + apply grille_valide3. apply (bool_decide_unpack _). vm_compute. exact I.
    + vm_compute. reflexivity.
Defined.
(** ** Labels of the moves, [shuffle], boards without a blank *)

(** On a valid 3 x 3 board the labels of the moves come in the order
    ['H'], ['G'], ['D'], ['B'], each at most once, and the label of a move
    names the place of the blank [p2] relative to the swapped cell [p1]:
    ['D'] one column to the left, ['G'] one column to the right, ['B'] one
    row up, ['H'] one row down. *)
Theorem actions_etiquettes (p : Puzzle) :
  valide3 p ->
  exists ms,
    actions p = Ok ms /\
    snd <$> ms `sublist_of` ["H"; "G"; "D"; "B"]%string /\
    forall m a, (m, a) ∈ ms ->
      let '(i, j) := move_p1 m in
      (a = "D"%string /\ move_p2 m = (i, j - 1)) \/
      (a = "G"%string /\ move_p2 m = (i, j + 1)) \/
      (a = "B"%string /\ move_p2 m = (i - 1, j)) \/
      (a = "H"%string /\ move_p2 m = (i + 1, j)).
Proof.
  intros Hp.
  destruct (valide3_grille p Hp) as (a & b & c & d & e & f & g & h & i & -> & H).
  cas_trou H;
    (eexists; split; [vm_compute; reflexivity|]; split;
     [repeat constructor
     |intros m lab Hin;
      repeat (apply elem_of_cons in Hin as [[= -> ->] | Hin]);
      try (by apply not_elem_of_nil in Hin);
      cbn [move_p1 move_p2];
      first [left; split; reflexivity
            |right; left; split; reflexivity
            |right; right; left; split; reflexivity
            |right; right; right; split; reflexivity]]).
Qed.

Lemma actions_etiquettes_witness :
  exists ms, actions but = Ok ms /\ snd <$> ms `sublist_of` ["H"; "G"; "D"; "B"]%string.
Proof.
  destruct (actions_etiquettes but) as (ms & H1 & H2 & _).
  - split; [reflexivity|]. split; [reflexivity|]. split; [by repeat constructor|].
    apply (Permutation_app_comm [1; 2; 3; 4; 5; 6; 7; 8] [0]).
  - by exists ms.
Defined.

Lemma choice_Ok {A : Type} (l : list A) (k : nat) :
  l <> [] -> exists x, choice l k = Ok x /\ x ∈ l.
Proof.
  intros Hl. unfold choice. destruct l as [|y l]; [done|].
  destruct (lookup_lt_is_Some_2 (y :: l) (k mod length (y :: l))) as [x Hx].
  { apply Nat.mod_upper_bound. simpl; lia. }
  rewrite Hx. exists x. split; [done|]. by eapply list_elem_of_lookup_2.
Qed.

Lemma shuffle_pas_valide3 (p : Puzzle) (tirages : list nat) :
  valide3 p ->
  exists q, shuffle_pas p tirages = Ok q /\ valide3 q /\ accessible p q.
Proof.
  unfold shuffle_pas. revert p. induction tirages as [|k tirages IH]; intros p Hp.
  - exists p. split; [done|]. split; [done | apply rtc_refl].
  - destruct (actions_valide3 p Hp) as (ms & Hms & Hlen & Hok).
    destruct (choice_Ok ms k) as ([m a] & Hch & Hin).
    { intros ->. simpl in Hlen. lia. }
    rewrite Forall_forall in Hok.
    destruct (Hok _ Hin) as (_ & _ & _ & _ & _ & q & Hq & Hvq & _).
    destruct (IH q Hvq) as (r & Hr & Hvr & Hqr).
    exists r. cbn [for_each]. rewrite Hms. cbn [mbind result_bind]. rewrite Hch.
    cbn [mbind result_bind fst]. simpl in Hq. rewrite Hq. cbn [mbind result_bind].
    split; [done|]. split; [done|]. eapply rtc_l; [|exact Hqr]. by exists ms, m, a.
Qed.

(** On a valid 3 x 3 board [shuffle] never raises, whatever the draws; it
    returns a valid board from which the original board can be reached back
    by legal moves. *)
Theorem shuffle_valide3 (p : Puzzle) (alea : nat -> nat) :
  valide3 p ->
  exists q, shuffle p alea = Ok q /\ valide3 q /\ accessible p q /\ accessible q p.
Proof.
  intros Hp. destruct (shuffle_pas_valide3 p (alea <$> seq 0 50) Hp) as (q & Hq & Hvq & Hpq).
  exists q. split; [done|]. split; [done|]. split; [done|].
  by apply (accessible_sym p q).
Qed.

Lemma shuffle_valide3_witness :
  exists q, shuffle but (fun n => n) = Ok q /\ valide3 q /\ accessible but q /\
            accessible q but.
Proof.
  apply shuffle_valide3.
  split; [reflexivity|]. split; [reflexivity|]. split; [by repeat constructor|].
  apply (Permutation_app_comm [1; 2; 3; 4; 5; 6; 7; 8] [0]).
Defined.
(** ** Boards without a blank *)

Lemma str_non_vide (x : Z) : str x <> EmptyString.
Proof.
  unfold str. intros H.
  assert (NilZero.int_of_string (NilZero.string_of_int (Z.to_int x)) = Some (Z.to_int x))
    as Hisi.
  { apply NilZero.isi; destruct x; simpl; try discriminate;
      intros [= H']; by apply DecimalPos.Unsigned.to_uint_nonnil in H'. }
  rewrite H in Hisi. discriminate Hisi.
Qed.

Lemma str_zero (x : Z) : str x = "0"%string -> x = 0.
Proof.
  unfold str. intros H.
  assert (NilZero.int_of_string (NilZero.string_of_int (Z.to_int x)) = Some (Z.to_int x))
    as Hisi.
  { apply NilZero.isi; destruct x; simpl; try discriminate;
      intros [= H']; by apply DecimalPos.Unsigned.to_uint_nonnil in H'. }
  rewrite H in Hisi. apply (DecimalZ.to_int_inj x 0).
  change (NilZero.int_of_string "0") with (Some (Z.to_int 0)) in Hisi. congruence.
Qed.

Lemma length_append (s1 s2 : string) :
  String.length (s1 +:+ s2) = (String.length s1 + String.length s2)%nat.
Proof. induction s1 as [|c s1 IH]; simpl; [done | by rewrite IH]. Qed.

Lemma un_caractere (s : string) :
  String.length s = 1%nat -> exists c, s = String c EmptyString.
Proof. destruct s as [|c [|? ?]]; try discriminate. by exists c. Qed.

Lemma est_resolu_sans_trou (a b c d e f g h i : Z) :
  i <> 0 -> est_resolu {| largeur := 3; table := grille a b c d e f g h i |} = false.
Proof.
  intros Hi. apply bool_decide_eq_false. intros H.
  change (str a +:+ str b +:+ str c +:+ str d +:+ str e +:+ str f +:+ str g +:+
          str h +:+ str i = "123456780"%string) in H.
  pose proof (f_equal String.length H) as Hlen. rewrite !length_append in Hlen.
  simpl in Hlen.
  assert (forall x, (1 <= String.length (str x))%nat) as Hnv.
  { intros x. pose proof (str_non_vide x). destruct (str x); [done | simpl; lia]. }
  pose proof (Hnv a). pose proof (Hnv b). pose proof (Hnv c). pose proof (Hnv d).
  pose proof (Hnv e). pose proof (Hnv f). pose proof (Hnv g). pose proof (Hnv h).
  pose proof (Hnv i).
  destruct (un_caractere (str a)) as [ca Ha]; [lia|].
  destruct (un_caractere (str b)) as [cb Hb]; [lia|].
  destruct (un_caractere (str c)) as [cc Hc]; [lia|].
  destruct (un_caractere (str d)) as [cd Hd]; [lia|].
  destruct (un_caractere (str e)) as [ce He]; [lia|].
  destruct (un_caractere (str f)) as [cf Hf]; [lia|].
  destruct (un_caractere (str g)) as [cg Hg]; [lia|].
  destruct (un_caractere (str h)) as [ch Hh]; [lia|].
  destruct (un_caractere (str i)) as [ci Hci]; [lia|].
  rewrite Ha, Hb, Hc, Hd, He, Hf, Hg, Hh in H. simpl in H.
  injection H as _ _ _ _ _ _ _ _ H. by apply Hi, str_zero.
Qed.

Lemma actions_sans_trou (a b c d e f g h i : Z) :
  Forall (fun x => x <> 0) [a; b; c; d; e; f; g; h; i] ->
  actions {| largeur := 3; table := grille a b c d e f g h i |} = Ok [].
Proof.
  intros H. repeat (apply Forall_cons in H as [? H]).
  destruct a as [|a|a]; [done|..]; destruct b as [|b|b]; try done;
  destruct c as [|c|c]; try done; destruct d as [|d|d]; try done;
  destruct e as [|e|e]; try done; destruct f as [|f|f]; try done;
  destruct g as [|g|g]; try done; destruct h as [|h|h]; try done;
  destruct i as [|i|i]; try done; reflexivity.
Qed.

(** A 3 x 3 grid that holds no [0], whatever its entries: [actions] lists
    no move, [shuffle] raises [IndexError] at its first draw, and [resoudre]
    returns the absent result at the second evaluation of the loop test. *)
Theorem sans_trou (a b c d e r s t u : Z) :
  Forall (fun x => x <> 0) [a; b; c; d; e; r; s; t; u] ->
  let p := {| largeur := 3; table := grille a b c d e r s t u |} in
  actions p = Ok [] /\
  (forall alea, shuffle p alea = Raise IndexError) /\
  (forall fuel, resoudre (mkSolution p) (S (S fuel)) = Some (Ok None)).
Proof.
  intros H p. subst p. pose proof (actions_sans_trou a b c d e r s t u H) as Hact.
  split; [exact Hact|]. split.
  - intros alea. unfold shuffle, shuffle_pas.
    change (alea <$> seq 0 50) with (alea 0%nat :: (alea <$> seq 1 49)).
    cbn [for_each]. by rewrite Hact.
  - intros fuel. unfold resoudre. cbn [boucle]. unfold iteration at 1.
    cbn [etat_initial queue]. unfold sorted. cbn [mapM]. unfold f at 1, h.
    cbn [puzzle Noeud_init initial]. rewrite manhattan_grille.
    cbn [mbind result_bind mret result_ret].
    cbn [sort_by_key foldr insert_by_key fmap list_fmap snd].
    unfold Noeud_est_resolu. cbn [puzzle Noeud_init initial].
    rewrite est_resolu_sans_trou
      by (repeat (apply Forall_cons in H as [? H]); done).
    unfold Noeud_actions. cbn [puzzle Noeud_init initial].
    rewrite Hact. reflexivity.
Qed.

Lemma sans_trou_witness :
  actions {| largeur := 3; table := grille 1 2 3 4 5 6 7 8 9 |} = Ok [] /\
  resoudre (mkSolution {| largeur := 3; table := grille 1 2 3 4 5 6 7 8 9 |}) 2
  = Some (Ok None).
Proof.
  destruct (sans_trou 1 2 3 4 5 6 7 8 9) as (H1 & _ & H3).
  - repeat (apply Forall_cons_2; [discriminate|]). apply Forall_nil_2.
  - split; [exact H1 | exact (H3 0%nat)].
Defined.
(** ** Subscripts *)

Lemma getitem_indice {A : Type} (l : list A) (i : Z) :
  getitem l i =
  match indice (length l) i with
  | Some k => match l !! k with
              | Some x => Ok x
              | None => Raise IndexError
              end
  | None => Raise IndexError
  end.
Proof. unfold getitem, indice. by destruct (_ && _). Qed.

Lemma setitem_indice {A : Type} (l : list A) (i : Z) (v : A) :
  setitem l i v =
  match indice (length l) i with
  | Some k => Ok (<[k := v]> l)
  | None => Raise IndexError
  end.
Proof. unfold setitem, indice. by destruct (_ && _). Qed.

Lemma indice_lt (n k : nat) (i : Z) : indice n i = Some k -> (k < n)%nat.
Proof.
  unfold indice. destruct (_ && _) eqn:H; [|discriminate]. intros [= <-].
  apply andb_true_iff in H as [H1 H2]. lia.
Qed.

Lemma indice_of_nat (n k : nat) : (k < n)%nat -> indice n (Z.of_nat k) = Some k.
Proof.
  intros Hk. unfold indice. destruct (Z.ltb_spec (Z.of_nat k) 0) as [|_]; [lia|].
  destruct (Z.leb_spec 0 (Z.of_nat k)); [|lia].
  destruct (Z.ltb_spec (Z.of_nat k) (Z.of_nat n)); [|lia]. simpl. f_equal. lia.
Qed.

Lemma indice_court (n k : nat) : (n <= k)%nat -> indice n (Z.of_nat k) = None.
Proof.
  intros Hk. unfold indice. destruct (Z.ltb_spec (Z.of_nat k) 0) as [|_]; [lia|].
  destruct (Z.ltb_spec (Z.of_nat k) (Z.of_nat n)); [lia|]. by rewrite andb_false_r.
Qed.

Lemma getitem_lookup {A : Type} (l : list A) (k : nat) (x : A) :
  l !! k = Some x -> getitem l (Z.of_nat k) = Ok x.
Proof.
  intros H. rewrite getitem_indice, indice_of_nat, H; [done|].
  by eapply lookup_lt_Some.
Qed.

Lemma getitem_court {A : Type} (l : list A) (k : nat) :
  (length l <= k)%nat -> getitem l (Z.of_nat k) = Raise IndexError.
Proof. intros H. by rewrite getitem_indice, indice_court. Qed.

(** ** Where [manhattan] is defined *)

Lemma manhattan_cellule_rang (t : list (list Z)) (i j d : Z) :
  getitem t i = Raise IndexError ->
  (row ← getitem t i;
   v ← getitem row j;
   if negb (v =? 0)
   then let '(x, y) := divmod (v - 1) 3 in
        Ok (d + (Z.abs (x - i) + Z.abs (y - j)))
   else Ok d) = Raise IndexError.
Proof. by intros ->. Qed.

Lemma manhattan_cellule_colonne (t : list (list Z)) (row : list Z) (i j d : Z) :
  getitem t i = Ok row -> getitem row j = Raise IndexError ->
  (row ← getitem t i;
   v ← getitem row j;
   if negb (v =? 0)
   then let '(x, y) := divmod (v - 1) 3 in
        Ok (d + (Z.abs (x - i) + Z.abs (y - j)))
   else Ok d) = Raise IndexError.
Proof. intros -> H. cbn [mbind result_bind]. by rewrite H. Qed.

Ltac lire :=
  first [ apply (getitem_lookup _ 0%nat); reflexivity
        | apply (getitem_lookup _ 1%nat); reflexivity
        | apply (getitem_lookup _ 2%nat); reflexivity ].

Ltac hors :=
  first [ apply (getitem_court _ 0%nat); simpl; lia
        | apply (getitem_court _ 1%nat); simpl; lia
        | apply (getitem_court _ 2%nat); simpl; lia ].

Ltac cellules :=
  repeat first
    [ erewrite manhattan_cellule by lire; cbn [mbind result_bind]
    | rewrite manhattan_cellule_rang by hors; cbn [mbind result_bind]
    | erewrite manhattan_cellule_colonne by first [lire | hors];
      cbn [mbind result_bind] ].

Lemma manhattan_coin (n : Z) (a b c d e f g h i : Z) (r1 r2 r3 : list Z)
  (reste : list (list Z)) :
  manhattan {| largeur := n;
               table := (a :: b :: c :: r1) :: (d :: e :: f :: r2) ::
                        (g :: h :: i :: r3) :: reste |} =
  Ok (dist a 0 0 + dist b 0 1 + dist c 0 2 +
      dist d 1 0 + dist e 1 1 + dist f 1 2 +
      dist g 2 0 + dist h 2 1 + dist i 2 2).
Proof.
  unfold manhattan. change (range 3) with [0; 1; 2]. cbn [for_each table].
  cellules. f_equal.
Qed.

Lemma manhattan_hors_coin (p : Puzzle) :
  ~ coin3 (table p) -> manhattan p = Raise IndexError.
Proof.
  destruct p as [n t]. unfold coin3. cbn [table]. intros H.
  unfold manhattan. change (range 3) with [0; 1; 2]. cbn [for_each table].
  destruct t as [|r1 [|r2 [|r3 reste]]];
    [cellules; reflexivity | | |].
  - destruct r1 as [|a [|b [|c r1]]]; cellules; reflexivity.
  - destruct r1 as [|a [|b [|c r1]]]; [cellules; reflexivity ..|].
    destruct r2 as [|d [|e [|f r2]]]; cellules; reflexivity.
  - destruct r1 as [|a [|b [|c r1]]]; [cellules; reflexivity ..|].
    destruct r2 as [|d [|e [|f r2]]]; [cellules; reflexivity ..|].
    destruct r3 as [|g [|h [|i r3]]]; [cellules; reflexivity ..|].
    exfalso. apply H. split; [simpl; lia|].
    repeat (apply Forall_cons_2; [simpl; lia|]). apply Forall_nil_2.
Qed.

(** [manhattan] reads the 3 x 3 corner of the grid whatever [largeur] is:
    it returns a non-negative number when the grid has at least three rows
    whose first three have at least three cells, and raises [IndexError]
    otherwise. *)
Theorem manhattan_defini (p : Puzzle) :
  (coin3 (table p) /\ exists k, manhattan p = Ok k /\ 0 <= k) \/
  (~ coin3 (table p) /\ manhattan p = Raise IndexError).
Proof.
  destruct (decide (coin3 (table p))) as [Hc|Hc].
  - left. split; [done|]. destruct p as [n t]. destruct Hc as [Hlen Hrows].
    cbn [table] in *.
    destruct t as [|r1 [|r2 [|r3 reste]]]; try (simpl in Hlen; lia).
    cbn [take] in Hrows.
    apply Forall_cons in Hrows as [H1 Hrows]. apply Forall_cons in Hrows as [H2 Hrows].
    apply Forall_cons in Hrows as [H3 _].
    destruct r1 as [|a [|b [|c r1]]]; try (simpl in H1; lia).
    destruct r2 as [|d [|e [|f r2]]]; try (simpl in H2; lia).
    destruct r3 as [|g [|h [|i r3]]]; try (simpl in H3; lia).
    rewrite manhattan_coin. eexists; split; [reflexivity|].
    pose proof (dist_pos a 0 0). pose proof (dist_pos b 0 1). pose proof (dist_pos c 0 2).
    pose proof (dist_pos d 1 0). pose proof (dist_pos e 1 1). pose proof (dist_pos f 1 2).
    pose proof (dist_pos g 2 0). pose proof (dist_pos h 2 1). pose proof (dist_pos i 2 2).
    lia.
  - right. split; [done|]. by apply manhattan_hors_coin.
Qed.

(** On a board without the 3 x 3 corner (a 1 x 1 or 2 x 2 board, a row
    missing or too short), [resoudre] raises [IndexError] in its first
    iteration, when the queue is sorted by [f], even if the board satisfies
    [est_resolu]. *)
Theorem resoudre_hors_coin (self : Solution) (fuel : nat) :
  ~ coin3 (table (initial self)) ->
  resoudre self (S fuel) = Some (Raise IndexError).
Proof.
  intros H. apply manhattan_hors_coin in H.
  unfold resoudre. cbn [boucle]. unfold iteration.
  cbn [etat_initial queue]. unfold sorted. cbn [mapM]. unfold f at 1, h.
  cbn [puzzle Noeud_init]. by rewrite H.
Qed.

Lemma resoudre_hors_coin_witness :
  resoudre (mkSolution {| largeur := 2; table := [[1; 2]; [3; 0]] |}) 1
  = Some (Raise IndexError).
Proof.
  apply (resoudre_hors_coin (mkSolution {| largeur := 2; table := [[1; 2]; [3; 0]] |}) 0).
  intros [H _]. simpl in H. lia.
Defined.
(** ** Keys on larger boards *)

(** On 4 x 4 boards the key does not determine the board: two different
    valid boards have the same [str], so [est_resolu] holds of a board that
    is not solved, and [resoudre] returns it at once as a solution. *)
Theorem cle_4x4_ambigue :
  valid_board 4 (table alias4) /\ valid_board 4 (table but4) /\
  table alias4 <> table but4 /\
  Puzzle_str alias4 = Puzzle_str but4 /\
  est_resolu alias4 = true /\
  resoudre (mkSolution alias4) 1 = Some (Ok (Some [Noeud_init alias4 None None])).
Proof.
  split; [|split; [|split; [|split; [|split]]]]; try reflexivity; try discriminate.
  - split; [reflexivity|]. split; [by repeat constructor|].
    apply (bool_decide_unpack _). vm_compute. exact I.
  - split; [reflexivity|]. split; [by repeat constructor|].
    apply (bool_decide_unpack _). vm_compute. exact I.
Qed.

(** ** [_move] on any grid *)

Lemma Puzzle_copy_init (p : Puzzle) : Puzzle_copy p = Puzzle_init (table p).
Proof.
  unfold Puzzle_copy. f_equal. induction (table p) as [|row t IH]; [done|].
  simpl. rewrite IH. f_equal. induction row as [|x row IHr]; [done|].
  simpl. by rewrite IHr.
Qed.

Lemma cell_place (p : Puzzle) (x : pos) :
  cell p x =
  match place (table p) x with
  | Some (i0, j0) => match lit (table p) i0 j0 with
                   | Some v => Ok v
                   | None => Raise IndexError
                   end
  | None => Raise IndexError
  end.
Proof.
  unfold cell, place, lit. rewrite getitem_indice.
  destruct (indice (length (table p)) x.1) as [i0|]; [|reflexivity]. cbn [mbind option_bind].
  destruct (table p !! i0) as [row|] eqn:Hrow.
  2: { reflexivity. }
  cbn [mbind result_bind option_bind].
  rewrite getitem_indice. destruct (indice (length row) x.2) as [j0|]; [|reflexivity].
  cbn [mbind option_bind]. by rewrite Hrow.
Qed.

Lemma setitem2_place (t : list (list Z)) (i j v : Z) :
  setitem2 t i j v =
  match place t (i, j) with
  | Some (i0, j0) => Ok (ecrit t i0 j0 v)
  | None => Raise IndexError
  end.
Proof.
  unfold setitem2, place, ecrit. cbn [fst snd]. rewrite getitem_indice.
  destruct (indice (length t) i) as [i0|] eqn:HI; [|reflexivity]. cbn [mbind option_bind].
  destruct (t !! i0) as [row|] eqn:Hrow; [|reflexivity]. cbn [mbind result_bind option_bind].
  rewrite setitem_indice.
  destruct (indice (length row) j) as [j0|]; [|reflexivity]. cbn [mbind result_bind option_bind].
  rewrite setitem_indice, HI. f_equal. apply list_eq. intros k0.
  rewrite list_lookup_alter, list_lookup_insert.
  destruct (decide (i0 = k0)) as [->|]; [|by rewrite decide_False by tauto].
  rewrite Hrow. rewrite decide_True; [done|]. split; [done|]. by eapply lookup_lt_Some.
Qed.

Lemma forme_ecrit (t : list (list Z)) (i0 j0 : nat) (v : Z) :
  length <$> ecrit t i0 j0 v = length <$> t.
Proof.
  unfold ecrit. apply list_eq. intros k0. rewrite !list_lookup_fmap, list_lookup_alter.
  destruct (decide (i0 = k0)) as [->|]; [|reflexivity].
  destruct (t !! k0) as [row|]; [|reflexivity]. simpl. by rewrite length_insert.
Qed.

Lemma place_forme (t t' : list (list Z)) (x : pos) :
  length <$> t = length <$> t' -> place t x = place t' x.
Proof.
  intros H. unfold place.
  assert (length t = length t') as Hlen
    by (by rewrite <- (length_fmap length t), H, length_fmap).
  rewrite Hlen. destruct (indice (length t') x.1) as [i0|]; [|reflexivity]. cbn [mbind option_bind].
  apply (f_equal (fun l => l !! i0)) in H. rewrite !list_lookup_fmap in H.
  destruct (t !! i0) as [row|], (t' !! i0) as [row'|]; try discriminate; [|reflexivity].
  injection H as H. cbn [mbind option_bind]. by rewrite H.
Qed.

Lemma place_lit (t : list (list Z)) (x : pos) (i0 j0 : nat) :
  place t x = Some (i0, j0) -> exists v, lit t i0 j0 = Some v.
Proof.
  unfold place, lit. destruct (indice (length t) x.1) as [I'|]; [|done]. cbn [mbind option_bind].
  destruct (t !! I') as [row|] eqn:Hrow; [|done]. cbn [mbind option_bind].
  destruct (indice (length row) x.2) as [J'|] eqn:HJ; [|done]. cbn [mbind option_bind].
  intros [= <- <-]. rewrite Hrow. cbn [mbind option_bind].
  apply lookup_lt_is_Some_2. by eapply indice_lt.
Qed.

Lemma lit_ecrit (t : list (list Z)) (i0 j0 k0 l0 : nat) (v w : Z) :
  lit t i0 j0 = Some w ->
  lit (ecrit t i0 j0 v) k0 l0 = if decide (k0 = i0 /\ l0 = j0) then Some v else lit t k0 l0.
Proof.
  unfold lit, ecrit. intros H. rewrite list_lookup_alter.
  destruct (t !! i0) as [row|] eqn:Hrow; [|done]. cbn [mbind option_bind] in H.
  destruct (decide (i0 = k0)) as [<-|HIK].
  - rewrite Hrow. cbn [fmap option_fmap option_map mbind option_bind].
    rewrite list_lookup_insert. apply lookup_lt_Some in H.
    destruct (decide (j0 = l0)) as [<-|HJL].
    + by rewrite !decide_True by (split; done).
    + rewrite !decide_False; [done | intros [_ ?]; by subst | tauto].
  - by rewrite decide_False by (intros [-> _]; done).
Qed.

Lemma grille_ext (t t' : list (list Z)) :
  length <$> t = length <$> t' -> (forall k0 l0, lit t k0 l0 = lit t' k0 l0) -> t = t'.
Proof.
  intros Hf Hlit. apply list_eq. intros k0.
  pose proof (f_equal (fun l => l !! k0) Hf) as HK. rewrite !list_lookup_fmap in HK.
  specialize (Hlit k0). unfold lit in Hlit.
  destruct (t !! k0) as [row|], (t' !! k0) as [row'|]; try discriminate; [|done].
  f_equal. apply list_eq. intros l0. apply (Hlit l0).
Qed.

Lemma lire_cellule {B : Type} (n : Z) (t : list (list Z)) (r c : Z) (k : Z -> result B) :
  (row ← getitem t r; v ← getitem row c; k v) =
  (v ← cell {| largeur := n; table := t |} (r, c); k v).
Proof. unfold cell. cbn [fst snd table]. by destruct (getitem t r). Qed.

(** What [_move] computes, by coordinates. *)
Lemma Puzzle_move_place (p : Puzzle) (p1 p2 : pos) :
  Puzzle_move p p1 p2 =
  match place (table p) p1, place (table p) p2 with
  | Some (i0, j0), Some (r0, c0) =>
      match lit (table p) i0 j0, lit (table p) r0 c0 with
      | Some vij, Some vrc =>
          Ok {| largeur := Z.of_nat (length (default [] (table p !! 0%nat)));
                table := ecrit (ecrit (table p) i0 j0 vrc) r0 c0 vij |}
      | _, _ => Raise IndexError
      end
  | _, _ => Raise IndexError
  end.
Proof.
  unfold Puzzle_move. rewrite Puzzle_copy_init, Puzzle_init_spec.
  destruct p as [n t]. cbn [table]. destruct p1 as [i j], p2 as [r c].
  destruct t as [|row0 t'] eqn:Ht.
  { cbn [mbind result_bind]. unfold place. cbn [fst length].
    by destruct (indice 0 i). }
  rewrite <- Ht. cbn [mbind result_bind table largeur].
  rewrite (lire_cellule n), cell_place. cbn [table].
  destruct (place t (r, c)) as [[r0 c0]|] eqn:HRC; [|by destruct (place t (i, j)) as [[??]|]].
  destruct (place_lit t _ _ _ HRC) as [vrc Hvrc]. rewrite Hvrc. cbn [mbind result_bind].
  rewrite (lire_cellule n), cell_place. cbn [table].
  destruct (place t (i, j)) as [[i0 j0]|] eqn:HIJ; [|reflexivity].
  destruct (place_lit t _ _ _ HIJ) as [vij Hvij]. rewrite Hvij. cbn [mbind result_bind].
  rewrite setitem2_place, HIJ. cbn [mbind result_bind].
  rewrite setitem2_place, (place_forme _ t), HRC by apply forme_ecrit.
  cbn [mbind result_bind]. by rewrite Ht.
Qed.

(** [_move] returns a board exactly when both positions designate a cell
    of the grid (a negative subscript counts from the end); otherwise it
    raises [IndexError]. *)
Theorem Puzzle_move_defini (p : Puzzle) (p1 p2 : pos) :
  match cell p p1, cell p p2 with
  | Ok _, Ok _ => exists q, Puzzle_move p p1 p2 = Ok q
  | _, _ => Puzzle_move p p1 p2 = Raise IndexError
  end.
Proof.
  rewrite Puzzle_move_place, !cell_place.
  destruct (place (table p) p1) as [[i0 j0]|] eqn:H1; [|reflexivity].
  destruct (place_lit _ _ _ _ H1) as [v1 Hv1]. rewrite Hv1.
  destruct (place (table p) p2) as [[r0 c0]|] eqn:H2; [|reflexivity].
  destruct (place_lit _ _ _ _ H2) as [v2 Hv2]. rewrite Hv2. by eexists.
Qed.

Lemma lit_echange (t : list (list Z)) (i0 j0 r0 c0 k0 l0 : nat) (vij vrc : Z) :
  lit t i0 j0 = Some vij -> lit t r0 c0 = Some vrc ->
  lit (ecrit (ecrit t i0 j0 vrc) r0 c0 vij) k0 l0 =
  if decide (k0 = r0 /\ l0 = c0) then Some vij
  else if decide (k0 = i0 /\ l0 = j0) then Some vrc
  else lit t k0 l0.
Proof.
  intros Hij Hrc.
  assert (exists w, lit (ecrit t i0 j0 vrc) r0 c0 = Some w) as [w Hw].
  { rewrite (lit_ecrit _ _ _ _ _ _ _ Hij). destruct (decide _); eauto. }
  by rewrite (lit_ecrit _ _ _ _ _ _ _ Hw), (lit_ecrit _ _ _ _ _ _ _ Hij).
Qed.

Lemma forme_premiere_ligne (t t' : list (list Z)) :
  length <$> t = length <$> t' ->
  length (default [] (t !! 0%nat)) = length (default [] (t' !! 0%nat)).
Proof. intros H. destruct t, t'; try discriminate; [done|]. by injection H. Qed.

(** The swap that [_move] makes, on any board as its constructor builds
    it: the result is again such a board, with rows of the same lengths;
    the cells at [p1] and [p2] have exchanged their values and every cell
    at another place keeps its value; and the same [_move] on the result
    gives the original board back. *)
Theorem Puzzle_move_echange (p q : Puzzle) (p1 p2 : pos) :
  Puzzle_init (table p) = Ok p -> Puzzle_move p p1 p2 = Ok q ->
  Puzzle_init (table q) = Ok q /\
  length <$> table q = length <$> table p /\
  cell q p1 = cell p p2 /\ cell q p2 = cell p p1 /\
  (forall x, place (table p) x <> place (table p) p1 ->
             place (table p) x <> place (table p) p2 -> cell q x = cell p x) /\
  Puzzle_move q p1 p2 = Ok p.
Proof.
  intros Hp Hq. rewrite Puzzle_move_place in Hq.
  destruct (place (table p) p1) as [[i0 j0]|] eqn:H1; [|discriminate].
  destruct (place (table p) p2) as [[r0 c0]|] eqn:H2; [|discriminate].
  destruct (lit (table p) i0 j0) as [vij|] eqn:Hij; [|discriminate].
  destruct (lit (table p) r0 c0) as [vrc|] eqn:Hrc; [|discriminate].
  injection Hq as <-. cbn [table largeur].
  set (t := table p) in *.
  set (t2 := ecrit (ecrit t i0 j0 vrc) r0 c0 vij).
  assert (length <$> t2 = length <$> t) as Hforme
    by (unfold t2; by rewrite !forme_ecrit).
  assert (forall k0 l0, lit t2 k0 l0 =
            if decide (k0 = r0 /\ l0 = c0) then Some vij
            else if decide (k0 = i0 /\ l0 = j0) then Some vrc
            else lit t k0 l0) as Hlit
    by (intros; by apply lit_echange).
  assert (forall x, place t2 x = place t x) as Hplace
    by (intros; by apply place_forme).
  assert (largeur p = Z.of_nat (length (default [] (t !! 0%nat))) /\ t <> []) as [Hl Hne].
  { rewrite Puzzle_init_spec in Hp. fold t in Hp. destruct t as [|row0 t']; [discriminate|].
    injection Hp as Hp. by rewrite <- Hp. }
  assert (lit t2 i0 j0 = Some vrc) as H2ij.
  { rewrite Hlit. destruct (decide (i0 = r0 /\ j0 = c0)) as [[-> ->]|]; [congruence|].
    by rewrite decide_True. }
  assert (lit t2 r0 c0 = Some vij) as H2rc by (by rewrite Hlit, decide_True).
  split; [|split; [done|split; [|split; [|split]]]].
  - rewrite Puzzle_init_spec. cbn [table].
    rewrite <- (forme_premiere_ligne t2 t Hforme). clearbody t2.
    destruct t2 as [|row0' t2']; [|done].
    destruct t; [done | discriminate Hforme].
  - rewrite !cell_place. cbn [table]. fold t. by rewrite Hplace, H1, H2, H2ij, Hrc.
  - rewrite !cell_place. cbn [table]. fold t. by rewrite Hplace, H1, H2, H2rc, Hij.
  - intros x Hx1 Hx2. rewrite !cell_place. cbn [table]. fold t. rewrite Hplace.
    destruct (place t x) as [[k0 l0]|]; [|done]. rewrite Hlit.
    rewrite !decide_False; [done | intros [-> ->]; by apply Hx1 | intros [-> ->]; by apply Hx2].
  - rewrite Puzzle_move_place. cbn [table]. rewrite !Hplace. fold t.
    rewrite H1, H2, H2ij, H2rc.
    rewrite <- (forme_premiere_ligne t) by done. rewrite <- Hl.
    destruct p as [n tp]. cbn [largeur table] in *. f_equal. f_equal.
    apply grille_ext; [by rewrite !forme_ecrit|]. intros k0 l0.
    rewrite (lit_echange t2 i0 j0 r0 c0 k0 l0 vrc vij H2ij H2rc), Hlit.
    destruct (decide (k0 = r0 /\ l0 = c0)) as [[-> ->]|]; [done|].
    destruct (decide (k0 = i0 /\ l0 = j0)) as [[-> ->]|]; done.
Qed.

Lemma Puzzle_move_echange_witness :
  Puzzle_move {| largeur := 2; table := [[1; 2]; [3; 0]] |} (0, -1) (-1, 1)
  = Ok {| largeur := 2; table := [[1; 0]; [3; 2]] |} /\
  Puzzle_move {| largeur := 2; table := [[1; 0]; [3; 2]] |} (0, -1) (-1, 1)
  = Ok {| largeur := 2; table := [[1; 2]; [3; 0]] |}.
Proof.
  split; [reflexivity|].
  apply (Puzzle_move_echange {| largeur := 2; table := [[1; 2]; [3; 0]] |}); reflexivity.
Defined.
(** ** The script *)

Lemma fold_script_noeud (p : list Noeud) (acc : list string * Z) :
  (fold_left script_noeud p acc).2 = acc.2 + Z.of_nat (length p) /\
  exists suite, (fold_left script_noeud p acc).1 = acc.1 ++ suite.
Proof.
  revert acc. induction p as [|n p IH]; intros acc.
  - split; [simpl; lia|]. exists []. by rewrite app_nil_r.
  - cbn [fold_left]. destruct (IH (script_noeud acc n)) as [H1 [suite H2]].
    split; [rewrite H1; unfold script_noeud; simpl; lia|].
    rewrite H2. unfold script_noeud at 1. cbn [fst]. rewrite <- app_assoc. eauto.
Qed.

Lemma resoudre_longueur (self : Solution) (fuel : nat) (path : list Noeud) :
  resoudre self fuel = Some (Ok (Some path)) ->
  exists dernier, last path = Some dernier /\ Z.of_nat (length path) = g dernier + 1.
Proof.
  intros (k & s & _ & Hs & Hfin)%boucle_apres.
  apply iteration_chemin in Hfin as (noeud & Hin & _ & ->).
  assert (Forall (fun n => chemin_ok (chemin n)) (queue s)) as Hok.
  { apply (apres_inv (fun st => Forall (fun n => chemin_ok (chemin n)) (queue st))
             k (etat_initial self)); [apply iteration_chemin_ok | | exact Hs].
    by repeat constructor. }
  rewrite Forall_forall in Hok. specialize (Hok noeud Hin).
  pose proof (chemin_dernier noeud) as Hlast. exists noeud. split; [done|].
  destruct (chemin noeud) as [|racine reste]; [done|].
  destruct Hok as (H0 & _ & Hl). rewrite last_lookup in Hlast.
  destruct reste as [|x reste].
  - injection Hlast as <-. simpl. lia.
  - simpl in Hlast. rewrite (liens_g racine (x :: reste) _ noeud Hl Hlast).
    simpl length. lia.
Qed.

(** Whatever the draws of [shuffle], the script runs to its end without an
    exception once the search has enough fuel: the shuffled board is
    solvable, so [p] is never [None].  Its output starts with the solved
    board as [pprint] writes it, and the number it reports as "Nombre de
    déplacements" is the number of nodes of the path, one more than the
    number of moves [g] of the last node. *)
Theorem script_termine (alea : nat -> nat) (duree : string) :
  exists fuel sortie milieu melange path dernier,
    shuffle but alea = Ok melange /\
    resoudre (mkSolution melange) fuel = Some (Ok (Some path)) /\
    last path = Some dernier /\
    script alea fuel duree = Some (sortie, None) /\
    sortie =
      ["Puzzle avant melange : "; "[1, 2, 3]"; "[4, 5, 6]"; "[7, 8, 0]"; "";
       "Puzzle apres melange : "]%string ++ milieu ++
      [("Nombre de déplacements: " +:+ str (g dernier + 1))%string;
       ("Durée de la recherche: " +:+ duree +:+ " second(s)")%string].
Proof.
  destruct (shuffle_pas_valide3 but (alea <$> seq 0 50) but_valide3)
    as (melange & Hm & Hvm & Hacc).
  destruct (trouve_chemin_accessible melange Hacc) as [(fuel & path & Hpath) _].
  destruct (resoudre_longueur _ _ _ Hpath) as (dernier & Hlast & Hlen).
  set (debut := (["Puzzle avant melange : "%string] ++ pprint but) ++
                ["Puzzle apres melange : "%string] ++ pprint melange).
  destruct (fold_script_noeud path (debut, 0)) as [Hsteps [suite Hsortie]].
  cbn [fst snd] in Hsteps, Hsortie.
  exists fuel. eexists. exists (pprint melange ++ suite), melange, path, dernier.
  split; [exact Hm|]. split; [exact Hpath|]. split; [exact Hlast|].
  unfold script. change (Puzzle_init (grille 1 2 3 4 5 6 7 8 0)) with (Ok but).
  cbv iota beta zeta. unfold shuffle in Hm. unfold shuffle. rewrite Hm, Hpath.
  fold debut. rewrite Hsteps, Hsortie, Z.add_0_l, Hlen.
  split; [reflexivity|]. unfold debut. rewrite <- !app_assoc. reflexivity.
Qed.
(** ** The moves of any board *)

Lemma for_each_inv {A S : Type} (P : S -> Prop) (l : list A)
  (body : A -> S -> result S) (s r : S) :
  P s -> (forall x s s', x ∈ l -> P s -> body x s = Ok s' -> P s') ->
  for_each l body s = Ok r -> P r.
Proof.
  revert s. induction l as [|x l IH]; intros s Hs Hbody; cbn [for_each].
  - by intros [= <-].
  - intros (s' & Hs' & Hr)%bind_Ok. apply (IH s'); [|intros; eapply Hbody; eauto; by right|done].
    eapply Hbody; [left | exact Hs | exact Hs'].
Qed.

Lemma elem_of_product {A B : Type} (xs : list A) (ys : list B) (x : A) (y : B) :
  (x, y) ∈ product xs ys -> x ∈ xs /\ y ∈ ys.
Proof.
  unfold product. intros (x' & Hxy & Hx)%list_elem_of_bind.
  apply list_elem_of_bind in Hxy as (y' & Hxy & Hy).
  apply list_elem_of_singleton in Hxy as [= -> ->]. done.
Qed.

(** Whatever the board, its size and its contents: every move that
    [actions] lists belongs to this board, swaps a cell [p1] inside the
    [largeur] x [largeur] square with an adjacent cell [p2] inside it, and
    [p2] holds the blank. *)
Theorem actions_correctes (p : Puzzle) (ms : list (move * string))
  (m : move) (a : string) :
  actions p = Ok ms -> (m, a) ∈ ms ->
  move_self m = p /\
  (0 <= (move_p1 m).1 < largeur p /\ 0 <= (move_p1 m).2 < largeur p) /\
  (0 <= (move_p2 m).1 < largeur p /\ 0 <= (move_p2 m).2 < largeur p) /\
  voisines (move_p1 m) (move_p2 m) /\
  cell p (move_p2 m) = Ok 0.
Proof.
  intros Hact Hin.
  set (ok := fun ma : move * string =>
    move_self ma.1 = p /\
    (0 <= (move_p1 ma.1).1 < largeur p /\ 0 <= (move_p1 ma.1).2 < largeur p) /\
    (0 <= (move_p2 ma.1).1 < largeur p /\ 0 <= (move_p2 ma.1).2 < largeur p) /\
    voisines (move_p1 ma.1) (move_p2 ma.1) /\
    cell p (move_p2 ma.1) = Ok 0).
  assert (Forall ok ms) as Hok; [|rewrite Forall_forall in Hok; exact (Hok _ Hin)].
  unfold actions in Hact.
  apply (for_each_inv (Forall ok) _ _ _ _ (Forall_nil_2 _) ) in Hact; [done|].
  intros [i j] moves moves' Hij Hmoves Hbody.
  apply elem_of_product in Hij as [Hi Hj].
  apply elem_of_seqZ in Hi, Hj.
  apply (for_each_inv (Forall ok) _ _ _ _ Hmoves) in Hbody; [done|].
  clear Hbody. intros [lab [r c]] mv mv' Hdir Hmv Hpas.
  destruct (_ && _) eqn:Hb in Hpas; [|by injection Hpas as <-].
  apply bind_Ok in Hpas as (row & Hrow & Hpas).
  apply bind_Ok in Hpas as (v & Hv & Hpas).
  destruct (Z.eqb_spec v 0) as [->|_]; [|by injection Hpas as <-].
  injection Hpas as <-. apply Forall_app. split; [done|].
  apply Forall_cons_2; [|apply Forall_nil_2].
  repeat (apply andb_true_iff in Hb as [Hb ?]).
  unfold ok. cbn [fst snd move_self move_p1 move_p2].
  split; [done|]. split; [lia|]. split; [lia|]. split.
  - unfold direcs in Hdir. unfold voisines. cbn [fst snd].
    repeat (apply elem_of_cons in Hdir as [[= _ -> ->]|Hdir]); try lia.
    by apply not_elem_of_nil in Hdir.
  - unfold cell. cbn [fst snd]. rewrite Hrow. cbn [mbind result_bind]. exact Hv.
Qed.

Lemma actions_correctes_witness :
  cell but4 (3, 3) = Ok 0 /\
  voisines (2, 3) (3, 3).
Proof.
  destruct (actions_correctes but4
              [(create_move but4 (2, 3) (3, 3), "H"%string);
               (create_move but4 (3, 2) (3, 3), "G"%string)]
              (create_move but4 (2, 3) (3, 3)) "H"%string)
    as (_ & _ & _ & H1 & H2).
  - reflexivity.
  - left.
  - split; [exact H2 | exact H1].
Defined.

(** ** Completeness on 3 x 3 boards *)

(** On every board reachable from the solved 3 x 3 board by legal moves, and
    so on every output of [shuffle] applied to it, whatever the number of
    draws, [resoudre] returns a path with enough fuel, and the same path
    whatever the fuel that suffices: never the absent result, never an
    exception.  The path starts at the given board, makes only moves listed
    by [actions], and ends at the solved board. *)
Theorem resoudre_complet (p : Puzzle) :
  accessible but p \/
  (exists tirages, shuffle_pas but tirages = Ok p) \/
  (exists alea, shuffle but alea = Ok p) ->
  exists fuel path dernier,
    resoudre (mkSolution p) fuel = Some (Ok (Some path)) /\
    solution_de p path /\ last path = Some dernier /\ puzzle dernier = but /\
    forall fuel' r, resoudre (mkSolution p) fuel' = Some r -> r = Ok (Some path).
Proof.
  intros H.
  assert (accessible but p) as Hacc.
  { destruct H as [H|[[tirages H]|[alea H]]]; [done| |].
    - by apply (shuffle_pas_accessible _ _ tirages).
    - by apply (shuffle_pas_accessible _ _ (alea <$> seq 0 50)). }
  clear H. destruct (accessible_sym but p but_valide3 Hacc) as [Hp _].
  destruct (trouve_chemin_accessible p Hacc) as [(fuel & path & Hr) _].
  pose proof Hr as (k & s & _ & Hs & Hfin)%boucle_apres.
  apply iteration_chemin in Hfin as (noeud & Hin & Hres & ->).
  exists fuel, (chemin noeud), noeud. split; [exact Hr|].
  assert (Forall (fun n => solution_de p (chemin n) /\ valide3 (puzzle n)) (queue s))
    as Hok.
  { apply (apres_inv
             (fun st => Forall (fun n => solution_de p (chemin n) /\ valide3 (puzzle n))
                          (queue st)) k (etat_initial (mkSolution p))); [| |exact Hs].
    - intros st st' [H1 H2]%Forall_and Hit. apply Forall_and. split.
      + by apply (iteration_solution_de p st st').
      + by apply (iteration_mesure st st').
    - apply Forall_cons_2; [|apply Forall_nil_2]. split; [by repeat split | exact Hp]. }
  rewrite Forall_forall in Hok. destruct (Hok noeud Hin) as [Hsol Hv].
  split; [exact Hsol|]. split; [apply chemin_dernier|]. split.
  { by apply est_resolu_but. }
  intros fuel' r Hr'. symmetry.
  apply (resoudre_deterministe (mkSolution p) fuel fuel' _ _ Hr Hr').
Qed.

Lemma resoudre_complet_witness :
  (exists tirages,
     shuffle_pas but tirages = Ok {| largeur := 3; table := grille 1 2 3 4 0 5 7 8 6 |}) /\
  exists path dernier,
    resoudre (mkSolution {| largeur := 3; table := grille 1 2 3 4 0 5 7 8 6 |}) 3
    = Some (Ok (Some path)) /\
    solution_de {| largeur := 3; table := grille 1 2 3 4 0 5 7 8 6 |} path /\
    last path = Some dernier /\ puzzle dernier = but /\ length path = 3%nat.
Proof.
  assert (shuffle_pas but [0; 1]%nat
          = Ok {| largeur := 3; table := grille 1 2 3 4 0 5 7 8 6 |}) as H
    by (vm_compute; reflexivity).
  split; [by exists [0; 1]%nat|].
  destruct (resoudre_complet {| largeur := 3; table := grille 1 2 3 4 0 5 7 8 6 |})
    as (fuel & path & dernier & Hr & Hsol & Hlast & Hbut & Hdet).
  { right; left. by exists [0; 1]%nat. }
  assert ((fun r => match r with Ok (Some l) => length l | _ => 0%nat end)
            <$> resoudre (mkSolution {| largeur := 3; table := grille 1 2 3 4 0 5 7 8 6 |}) 3
          = Some 3%nat) as Hl by (vm_compute; reflexivity).
  destruct (resoudre _ 3) as [r|] eqn:H3; [|discriminate Hl].
  apply Hdet in H3 as ->. injection Hl as Hl.
  exists path, dernier. split; [reflexivity|]. split; [exact Hsol|].
  split; [exact Hlast|]. split; [exact Hbut | exact Hl].
Defined.
